(** * group.py: the [Group] class, a finite set with an operation checked
    against the group axioms when it is built.

    The embedding follows the source method by method.

    - A Python [set] is a list without duplicates, in the order in which the
      set is iterated. [set_ elems] removes the duplicates of the iterable
      it is given; a list that is already duplicate free is kept as it is, so
      quantifying over the argument of the constructor quantifies over every
      iteration order.
    - The operation is a Python object: it may or may not be callable;
      [inspect.signature] gives its number of declared parameters or raises
      (a built-in without signature); reading its [__name__] gives a string
      or raises (a callable object, a [functools.partial]); when called with
      two elements it returns an element (it is pure, deterministic and
      total).
    - Exceptions are values of [exn]; a method is a function from the state
      of [self] to a result and the state of [self] afterwards.
    - An instance has an identity, [id(self)], fixed by the allocation that
      precedes [__init__]; it is what the inherited [==] compares. *)

From Stdlib Require Import ZArith.
From stdpp Require Import base list strings.

(** ** Exceptions and the monad of methods *)

Inductive exn :=
| TypeError (msg : string)
| ValueError (msg : string)
| AttributeError (msg : string)
| StopIteration.

Definition result (A : Type) : Type := exn + A.

(** A method reads and may write the attributes [S] of [self], and either
    returns or raises. *)
Definition method (S A : Type) : Type := S → result A * S.

Definition raise {S A} (err : exn) : method S A := λ self, (inl err, self).
Definition read_self {S} : method S S := λ self, (inr self, self).
Definition lift {S A} (r : result A) : method S A := λ self, (r, self).

Global Instance method_ret {S} : MRet (method S) :=
  λ A x self, (inr x, self).
Global Instance method_bind {S} : MBind (method S) :=
  λ A B k m self,
    match m self with
    | (inr x, self') => k x self'
    | (inl err, self') => (inl err, self')
    end.

Global Instance method_fmap {S} : FMap (method S) :=
  λ A B f m, x ← m; mret (f x).

(** ** Built-ins used by the class *)

(** [any(...)] and [all(...)] over the values a generator yields. *)
Fixpoint any (bs : list bool) : bool :=
  match bs with
  | [] => false
  | b :: bs' => if b then true else any bs'
  end.

Fixpoint all (bs : list bool) : bool :=
  match bs with
  | [] => true
  | b :: bs' => if b then all bs' else false
  end.

(** [next(it)]: the first value of the iterator, [StopIteration] when it has
    none. *)
Definition next {A} (it : list A) : result A :=
  match it with
  | [] => inl StopIteration
  | x :: _ => inr x
  end.

(** [functools.reduce(function, iterable)] without an initial value. *)
Fixpoint reduce_loop {A} (function : A → A → A) (value : A) (it : list A) : A :=
  match it with
  | [] => value
  | element :: it' => reduce_loop function (function value element) it'
  end.

Definition reduce {A} (function : A → A → A) (iterable : list A) : result A :=
  match iterable with
  | [] => inl (TypeError "reduce() of empty iterable with no initial value")
  | value :: it => inr (reduce_loop function value it)
  end.

(** The first element of a [for] loop that reaches [break]; [None] when the
    loop runs into its [else] branch. *)
Fixpoint for_break {A} (cond : A → bool) (l : list A) : option A :=
  match l with
  | [] => None
  | x :: l' => if cond x then Some x else for_break cond l'
  end.

Section group.
Context {E : Type} `{EqDecision E}.

(** [a == b] and [a in s] on elements. *)
Definition eqb_ (a b : E) : bool := bool_decide (a = b).
Definition mem (a : E) (s : list E) : bool := bool_decide (a ∈ s).

(** [set(elems)] *)
Definition set_ (elems : list E) : list E := remove_dups elems.

(** [itertools.product(s, repeat=2)] and [product(s, repeat=3)]; the last
    component varies fastest. *)
Definition product2 (s : list E) : list (E * E) :=
  a ← s; b ← s; [(a, b)].
Definition product3 (s : list E) : list (E * E * E) :=
  a ← s; b ← s; c ← s; [(a, b, c)].

(** [s < t] on sets: [s] is a proper subset of [t]. *)
Definition set_le (s t : list E) : bool := all ((λ x, mem x t) <$> s).
Definition set_lt (s t : list E) : bool := set_le s t && negb (set_le t s).

(** The object passed as [op]. *)
Record operation := {
  is_callable : bool;          (* callable(op) *)
  parameters : result nat;     (* len(signature(op).parameters) *)
  __name__ : result string;    (* op.__name__ *)
  call : E → E → E             (* op(a, b) *)
}.

(** The attributes of an instance, and [id(self)]. *)
Record Group := {
  oid : nat;
  _elems : list E;
  op : operation;
  e : E
}.

(** *** [Group.__init__] *)
Definition __init__ (self_id : nat) (elems : list E) (op : operation)
  : result Group :=
  let _elems := set_ elems in
  (* Operation check: [signature(op)] is evaluated for a callable only, and
     what it raises is not caught *)
  if negb (is_callable op) then
    inl (TypeError "operation must be callable and take 2 arguments")
  else
  match parameters op with
  | inl err => inl err
  | inr n =>
  if negb (n =? 2)%nat then
    inl (TypeError "operation must be callable and take 2 arguments")
  else
  let op_ := call op in
  (* Closure check *)
  if any ((λ ab : E * E, negb (mem (op_ ab.1 ab.2) _elems)) <$> product2 _elems) then
    inl (TypeError "the closure property is not satisfied")
  else
  (* Associativity check *)
  let is_assoc x y z := eqb_ (op_ (op_ x y) z) (op_ x (op_ y z)) in
  if any ((λ abc : E * E * E, negb (is_assoc abc.1.1 abc.1.2 abc.2)) <$> product3 _elems) then
    inl (TypeError "the associativity property is not satisfied")
  else
  (* Identity check *)
  match for_break
          (λ e, all ((λ a, eqb_ (op_ e a) (op_ a e) && eqb_ (op_ a e) a) <$> _elems))
          _elems with
  | None => inl (TypeError "the identity property is not satisfied")
  | Some e =>
    (* Inverse check *)
    let has_inverse x := any ((λ a, eqb_ (op_ x a) e) <$> _elems) in
    if any ((λ a, negb (has_inverse a)) <$> _elems) then
      inl (TypeError "the inverse property is not satisfied")
    else
      inr {| oid := self_id; _elems := _elems; op := op; e := e |}
  end
  end.
End group.

Arguments operation : clear implicits.
Arguments Group : clear implicits.

(** The other operand of a comparison: a [Group] or a raw [set]. *)
Inductive pyobj (E : Type) :=
| PyGroup (g : Group E)
| PySet (s : list E).
Arguments PyGroup {E} g.
Arguments PySet {E} s.

Section methods.
Context {E : Type} `{EqDecision E}.

(** [repr] of an element, used by the string conversions. *)
Variable repr_elem : E → string.

Local Abbreviation meth := (method (Group E)).

(** [repr] of a set, which is also what an f-string inserts for it. *)
Definition repr_set (s : list E) : string :=
  match s with
  | [] => "set()"
  | _ => "{" +:+ String.concat ", " (repr_elem <$> s) +:+ "}"
  end.

(** *** Properties *)
Definition elems : meth (list E) :=
  self ← read_self; mret (_elems self).

Definition identity : meth E :=
  self ← read_self; mret (e self).

(** *** String conversions, iteration, membership, size *)
Definition __repr__ : meth string :=
  self ← read_self;
  name ← lift (__name__ (op self));
  mret ("Group(" +:+ repr_set (_elems self) +:+ ", " +:+ name +:+ ")").

Definition __str__ : meth string :=
  self ← read_self;
  name ← lift (__name__ (op self));
  mret ("<" +:+ repr_set (_elems self) +:+ ", " +:+ name +:+ ">").

(** [iter(self._elems)]: a fresh pass over the set, as the list of the
    values it will yield. *)
Definition __iter__ : meth (list E) :=
  self ← read_self; mret (_elems self).

Definition __contains__ (elem : E) : meth bool :=
  self ← read_self; mret (mem elem (_elems self)).

Definition __len__ : meth nat :=
  self ← read_self; mret (length (_elems self)).

(** *** Comparisons *)
Definition __lt__ (other : pyobj E) : meth bool :=
  self ← read_self;
  match other with
  | PyGroup g => mret (set_lt (_elems self) (_elems g))   (* other.elems *)
  | PySet s => mret (set_lt (_elems self) s)
  end.

(** The class defines no [__eq__]. [functools.total_ordering] supplies only
    the ordering methods that are missing ([__gt__], [__le__], [__ge__]),
    each from [__lt__] and the [__eq__] the class already has, which here is
    the one inherited from [object]: identity of the two operands. *)
Definition __eq__ (other : pyobj E) : meth bool :=
  self ← read_self;
  match other with
  | PyGroup g => mret (oid self =? oid g)%nat               (* self is other *)
  | PySet _ => mret false
  end.

Definition __ne__ (other : pyobj E) : meth bool :=
  b ← __eq__ other; mret (negb b).

(** [_le_from_lt]: [op_result or self == other] *)
Definition __le__ (other : pyobj E) : meth bool :=
  op_result ← __lt__ other;
  if (op_result : bool) then mret true else __eq__ other.

(** [_gt_from_lt]: [not op_result and self != other] *)
Definition __gt__ (other : pyobj E) : meth bool :=
  op_result ← __lt__ other;
  if negb op_result then __ne__ other else mret false.

(** [_ge_from_lt]: [not op_result] *)
Definition __ge__ (other : pyobj E) : meth bool :=
  op_result ← __lt__ other; mret (negb op_result).

(** *** [operate], [inverse], [is_abelian] *)
Definition operate (elems : list E) : meth E :=
  self ← read_self;
  if any ((λ elem, negb (mem elem (_elems self))) <$> elems) then
    raise (ValueError "all elements must be members of the group")
  else
    lift (reduce (call (op self)) elems).

Definition inverse (elem : E) : meth E :=
  self ← read_self;
  if negb (mem elem (_elems self)) then
    raise (ValueError "the element provided is not a member of the group")
  else
    lift (next (filter (λ a, call (op self) a elem = e self) (_elems self))).

Definition is_abelian : meth bool :=
  self ← read_self;
  mret (all ((λ ab : E * E,
                eqb_ (call (op self) ab.1 ab.2) (call (op self) ab.2 ab.1))
             <$> product2 (_elems self))).

(** *** Sequences of calls on one instance *)
Inductive query :=
| QElems | QIdentity | QRepr | QStr | QIter | QLen
| QContains (elem : E)
| QLt (other : pyobj E) | QLe (other : pyobj E) | QGt (other : pyobj E)
| QGe (other : pyobj E) | QEq (other : pyobj E) | QNe (other : pyobj E)
| QOperate (elems : list E)
| QInverse (elem : E)
| QIsAbelian.

Inductive value :=
| VBool (b : bool) | VInt (n : nat) | VStr (s : string)
| VElem (x : E) | VSet (s : list E) | VIter (it : list E).

Definition run_query (q : query) : meth value :=
  match q with
  | QElems => VSet <$> elems
  | QIdentity => VElem <$> identity
  | QRepr => VStr <$> __repr__
  | QStr => VStr <$> __str__
  | QIter => VIter <$> __iter__
  | QLen => VInt <$> __len__
  | QContains x => VBool <$> __contains__ x
  | QLt o => VBool <$> __lt__ o
  | QLe o => VBool <$> __le__ o
  | QGt o => VBool <$> __gt__ o
  | QGe o => VBool <$> __ge__ o
  | QEq o => VBool <$> __eq__ o
  | QNe o => VBool <$> __ne__ o
  | QOperate xs => VElem <$> operate xs
  | QInverse x => VElem <$> inverse x
  | QIsAbelian => VBool <$> is_abelian
  end.

(** The caller runs the queries one after the other, catching whatever is
    raised; the outcomes are collected and the state is threaded through. *)
Fixpoint run_queries (qs : list query) (self : Group E)
  : list (result value) * Group E :=
  match qs with
  | [] => ([], self)
  | q :: qs' =>
    let '(r, self') := run_query q self in
    let '(rs, self'') := run_queries qs' self' in
    (r :: rs, self'')
  end.
End methods.

(** ** Specification-level definitions *)

(** [reduce] computes the nested application [f (... (f (f e1 e2) e3) ...) en].
    [nested e1 [en; ...; e2]] is that term: its outermost call has [en] as
    second argument. *)
Fixpoint nested {A} (f : A → A → A) (e1 : A) (rest_rev : list A) : A :=
  match rest_rev with
  | [] => e1
  | en :: before => f (nested f e1 before) en
  end.

Section axioms_def.
Context {E : Type}.
Implicit Types (s : list E) (f : E → E → E) (a b c : E).

(** The four checks of [__init__], as propositions over the carrier set [s],
    the operation [f] and the identity [e0] that is cached. *)
Record group_axioms s f (e0 : E) : Prop := {
  ax_closure : ∀ a b, a ∈ s → b ∈ s → f a b ∈ s;
  ax_assoc : ∀ a b c, a ∈ s → b ∈ s → c ∈ s → f (f a b) c = f a (f b c);
  ax_identity_mem : e0 ∈ s;
  ax_identity : ∀ a, a ∈ s → f e0 a = a ∧ f a e0 = a;
  ax_inverse : ∀ a, a ∈ s → ∃ b, b ∈ s ∧ f a b = e0
}.

End axioms_def.

(** ** The operations and groups of the examples *)

(** [lambda a, b: (a + b) % 4] *)
Definition add_mod4 : operation Z :=
  {| is_callable := true; parameters := inr 2%nat; __name__ := inr "<lambda>";
     call := λ a b, ((a + b) mod 4)%Z |}.

(** [lambda a, b: a + b] *)
Definition add : operation Z :=
  {| is_callable := true; parameters := inr 2%nat; __name__ := inr "<lambda>";
     call := λ a b, (a + b)%Z |}.

(** Another group on [{0, 1, 2, 3}]: bitwise exclusive or,
    [lambda a, b: a ^ b]. *)
Definition xor : operation Z :=
  {| is_callable := true; parameters := inr 2%nat; __name__ := inr "<lambda>";
     call := λ a b, Z.lxor a b |}.

(** [lambda a, b: (a - b) % 3], closed on [{0, 1, 2}] and not associative. *)
Definition sub_mod3 : operation Z :=
  {| is_callable := true; parameters := inr 2%nat; __name__ := inr "<lambda>";
     call := λ a b, ((a - b) mod 3)%Z |}.

(** [lambda a, b: 0], closed and associative on [{0, 1}], without identity. *)
Definition zero : operation Z :=
  {| is_callable := true; parameters := inr 2%nat; __name__ := inr "<lambda>";
     call := λ a b, 0%Z |}.

(** [lambda a, b: a * b]: on [{0, 1}] a monoid in which [0] has no inverse. *)
Definition mul : operation Z :=
  {| is_callable := true; parameters := inr 2%nat; __name__ := inr "<lambda>";
     call := λ a b, (a * b)%Z |}.

(** [lambda a: a], a callable of one parameter; it is never called. *)
Definition unary : operation Z :=
  {| is_callable := true; parameters := inr 1%nat; __name__ := inr "<lambda>";
     call := λ a b, a |}.

(** The built-in [max]: callable, and [signature(max)] raises. *)
Definition builtin_max : operation Z :=
  {| is_callable := true;
     parameters :=
       inl (ValueError "no signature found for builtin <built-in function max>");
     __name__ := inr "max";
     call := Z.max |}.

(** [functools.partial(lambda n, a, b: (a + b) % n, 4)]: a callable of two
    parameters without [__name__]. *)
Definition partial_add_mod4 : operation Z :=
  {| is_callable := true; parameters := inr 2%nat;
     __name__ :=
       inl (AttributeError "'functools.partial' object has no attribute '__name__'");
     call := λ a b, ((a + b) mod 4)%Z |}.

(** The state of [Group({0, 1, 2, 3}, partial_add_mod4)] at address 5. *)
Definition Z4_partial : Group Z :=
  {| oid := 5; _elems := [0; 1; 2; 3]%Z; op := partial_add_mod4; e := 0%Z |}.

(** The equality that the ordering induces, in the words of the
    specification: two Groups are equal when neither is strictly less than
    the other, [not (g1 < g2) and not (g2 < g1)]. *)
Definition ordering_equal {E} `{EqDecision E} (g1 g2 : Group E) : result bool :=
  match (__lt__ (PyGroup g2) g1).1 with
  | inl err => inl err
  | inr lt12 =>
    if negb lt12 then
      match (__lt__ (PyGroup g1) g2).1 with
      | inl err => inl err
      | inr lt21 => inr (negb lt21)
      end
    else inr false
  end.

(** The elements of the other operand of a comparison. *)
Definition pyobj_elems {E} (other : pyobj E) : list E :=
  match other with
  | PyGroup g => _elems g
  | PySet s => s
  end.

(** Whether the other operand is the instance at address [self_id]. *)
Definition is_object {E} (self_id : nat) (other : pyobj E) : Prop :=
  match other with
  | PyGroup g => oid g = self_id
  | PySet _ => False
  end.

(** The state of [Group({0, 1, 2, 3}, add_mod4)] at address 2, when the set
    is iterated in decreasing order. *)
Definition Z4_rev : Group Z :=
  {| oid := 2; _elems := [3; 2; 1; 0]%Z; op := add_mod4; e := 0%Z |}.

(** The states of [Group({0, 2}, add_mod4)] and [Group({0}, add_mod4)]. *)
Definition Z4_even : Group Z :=
  {| oid := 3; _elems := [0; 2]%Z; op := add_mod4; e := 0%Z |}.
Definition Z4_zero : Group Z :=
  {| oid := 4; _elems := [0]%Z; op := add_mod4; e := 0%Z |}.

(** The state of [Group({3, 2, 1, 0}, xor)] at address 2, when the set is
    iterated in decreasing order. *)
Definition V4 : Group Z :=
  {| oid := 2; _elems := [3; 2; 1; 0]%Z; op := xor; e := 0%Z |}.

(** The state of [Group({0, 1, 2, 3}, add_mod4)] at address [self_id], when
    the set is iterated in increasing order. *)
Definition Z4 (self_id : nat) : Group Z :=
  {| oid := self_id; _elems := [0; 1; 2; 3]%Z; op := add_mod4; e := 0%Z |}.


(** * Properties *)

(** ** The built-ins *)

Lemma any_fmap_true {A} (f : A → bool) (l : list A) :
  any (f <$> l) = true ↔ ∃ x, x ∈ l ∧ f x = true.
Proof.
  induction l as [|y l IH]; simpl.
  - split; [discriminate | intros (x & Hx & _); by apply not_elem_of_nil in Hx].
  - destruct (f y) eqn:Hy.
    + split; [intros _; exists y; split; [left | done] | done].
    + rewrite IH. split.
      * intros (x & Hx & Hfx). exists x. split; [by right | done].
      * intros (x & Hx & Hfx). apply elem_of_cons in Hx as [-> | Hx].
        -- congruence.
        -- by exists x.
Qed.

Lemma any_fmap_false {A} (f : A → bool) (l : list A) :
  any (f <$> l) = false ↔ ∀ x, x ∈ l → f x = false.
Proof.
  split.
  - intros Hany x Hx. destruct (f x) eqn:Hfx; [| done].
    assert (any (f <$> l) = true) by (apply any_fmap_true; eauto). congruence.
  - intros Hall. destruct (any (f <$> l)) eqn:Hany; [| done].
    apply any_fmap_true in Hany as (x & Hx & Hfx). rewrite Hall in Hfx; done.
Qed.

Lemma all_fmap_true {A} (f : A → bool) (l : list A) :
  all (f <$> l) = true ↔ ∀ x, x ∈ l → f x = true.
Proof.
  induction l as [|y l IH]; simpl.
  - split; [intros _ x Hx; by apply not_elem_of_nil in Hx | done].
  - destruct (f y) eqn:Hy.
    + rewrite IH. split.
      * intros Hall x Hx. apply elem_of_cons in Hx as [-> | Hx]; auto.
      * intros Hall x Hx. apply Hall. by right.
    + split; [discriminate |]. intros Hall. rewrite <- Hy. apply Hall. left.
Qed.

Lemma for_break_Some {A} (cond : A → bool) (l : list A) (x : A) :
  for_break cond l = Some x →
  cond x = true ∧
  ∃ before after, l = before ++ x :: after ∧ ∀ y, y ∈ before → cond y = false.
Proof.
  induction l as [|y l IH]; simpl; [discriminate |].
  destruct (cond y) eqn:Hy.
  - intros [= ->]. split; [done |]. exists [], l. split; [done |].
    intros z Hz. by apply not_elem_of_nil in Hz.
  - intros Hfind. destruct (IH Hfind) as (Hx & before & after & -> & Hbefore).
    split; [done |]. exists (y :: before), after. split; [done |].
    intros z Hz. apply elem_of_cons in Hz as [-> | Hz]; auto.
Qed.

Lemma for_break_None {A} (cond : A → bool) (l : list A) :
  for_break cond l = None ↔ ∀ x, x ∈ l → cond x = false.
Proof.
  induction l as [|y l IH]; simpl.
  - split; [intros _ x Hx; by apply not_elem_of_nil in Hx | done].
  - destruct (cond y) eqn:Hy.
    + split; [discriminate |]. intros Hall.
      specialize (Hall y ltac:(left)). congruence.
    + rewrite IH. split.
      * intros Hall x Hx. apply elem_of_cons in Hx as [-> | Hx]; auto.
      * intros Hall x Hx. apply Hall. by right.
Qed.

Lemma reduce_loop_snoc {A} (f : A → A → A) (value : A) (it : list A) (x : A) :
  reduce_loop f value (it ++ [x]) = f (reduce_loop f value it) x.
Proof. revert value. induction it as [|y it IH]; intros value; simpl; auto. Qed.

Lemma reduce_loop_nested {A} (f : A → A → A) (value : A) (it : list A) :
  reduce_loop f value it = nested f value (reverse it).
Proof.
  induction it as [|x it IH] using rev_ind; [done |].
  rewrite reduce_loop_snoc, reverse_snoc. simpl. by rewrite IH.
Qed.

Lemma reduce_loop_fold_left {A} (f : A → A → A) (value : A) (it : list A) :
  reduce_loop f value it = fold_left f it value.
Proof. revert value. induction it as [|x it IH]; intros value; simpl; auto. Qed.

(** For three arguments: [op(op(e1, e2), e3)]. *)
Lemma nested_three {A} (f : A → A → A) (e1 e2 e3 : A) :
  nested f e1 (reverse [e2; e3]) = f (f e1 e2) e3.
Proof. reflexivity. Qed.

Section set_facts.
Context {E : Type} `{EqDecision E}.
Implicit Types (s t : list E) (a b c : E).

Lemma eqb_true a b : eqb_ a b = true ↔ a = b.
Proof. apply bool_decide_eq_true. Qed.

Lemma eqb_eq a b : eqb_ a b = true → a = b.
Proof. apply eqb_true. Qed.

Lemma eqb_neq a b : eqb_ a b = false → a ≠ b.
Proof. apply bool_decide_eq_false. Qed.

Lemma mem_true a s : mem a s = true ↔ a ∈ s.
Proof. apply bool_decide_eq_true. Qed.

Lemma mem_elem_of a s : mem a s = true → a ∈ s.
Proof. apply mem_true. Qed.

Lemma mem_false a s : mem a s = false ↔ a ∉ s.
Proof. apply bool_decide_eq_false. Qed.

Lemma elem_of_set_ (l : list E) a : a ∈ set_ l ↔ a ∈ l.
Proof. apply elem_of_remove_dups. Qed.

Lemma NoDup_set_ (l : list E) : NoDup (set_ l).
Proof. apply NoDup_remove_dups. Qed.

(** A duplicate-free list is a set in its own iteration order. *)
Lemma set_NoDup (l : list E) : NoDup l → set_ l = l.
Proof.
  unfold set_. induction 1 as [|x l Hx Hl IH]; simpl; [done |].
  destruct (decide_rel elem_of x l) as [Hin | _]; [done | by rewrite IH].
Qed.

Lemma elem_of_product2 s a b : (a, b) ∈ product2 s ↔ a ∈ s ∧ b ∈ s.
Proof.
  unfold product2. rewrite list_elem_of_bind. split.
  - intros (x & Hab & Hx). apply list_elem_of_bind in Hab as (y & Hab & Hy).
    apply list_elem_of_singleton in Hab as [= -> ->]. done.
  - intros [Ha Hb]. exists a. split; [| done].
    apply list_elem_of_bind. exists b. split; [| done]. by left.
Qed.

Lemma elem_of_product3 s a b c :
  (a, b, c) ∈ product3 s ↔ a ∈ s ∧ b ∈ s ∧ c ∈ s.
Proof.
  unfold product3. rewrite list_elem_of_bind. split.
  - intros (x & Hab & Hx). apply list_elem_of_bind in Hab as (y & Hab & Hy).
    apply list_elem_of_bind in Hab as (z & Hab & Hz).
    apply list_elem_of_singleton in Hab as [= -> -> ->]. done.
  - intros (Ha & Hb & Hc). exists a. split; [| done].
    apply list_elem_of_bind. exists b. split; [| done].
    apply list_elem_of_bind. exists c. split; [| done]. by left.
Qed.

Lemma set_le_true s t : set_le s t = true ↔ ∀ x, x ∈ s → x ∈ t.
Proof.
  unfold set_le. rewrite all_fmap_true.
  split; intros Hst x Hx; apply mem_true, Hst, Hx.
Qed.

(** [s < t] is false as soon as the two sets have the same members. *)
Lemma set_lt_same s t : (∀ x, x ∈ s ↔ x ∈ t) → set_lt s t = false.
Proof.
  intros Hst. unfold set_lt.
  assert (set_le t s = true) as -> by (apply set_le_true; intros x; apply Hst).
  apply andb_false_r.
Qed.
End set_facts.

(** ** What the constructor checks *)

Section axioms.
Context {E : Type} `{EqDecision E}.
Implicit Types (s : list E) (f : E → E → E) (a b c : E).

(** The test of the identity loop holds of [x] exactly when [x] is a
    two-sided identity. *)
Lemma identity_test f s (x : E) :
  all ((λ a, eqb_ (f x a) (f a x) && eqb_ (f a x) a) <$> s) = true ↔
  ∀ a, a ∈ s → f x a = a ∧ f a x = a.
Proof.
  rewrite all_fmap_true. split; intros Hid a Ha; specialize (Hid a Ha).
  - apply andb_true_iff in Hid as [H1 H2].
    apply eqb_eq in H1. apply eqb_eq in H2. split; congruence.
  - destruct Hid as [H1 H2]. apply andb_true_iff.
    split; apply eqb_true; congruence.
Qed.

(** Two two-sided identities of the same carrier set are equal. *)
Lemma identity_unique f s (x y : E) :
  x ∈ s → y ∈ s →
  (∀ a, a ∈ s → f x a = a ∧ f a x = a) →
  (∀ a, a ∈ s → f y a = a ∧ f a y = a) →
  x = y.
Proof.
  intros Hx Hy Hidx Hidy.
  destruct (Hidx y Hy) as [Hxy _]. destruct (Hidy x Hx) as [_ Hxy'].
  congruence.
Qed.

(** Right inverses, with closure, associativity and a two-sided identity,
    give left inverses: if [a b = e] and [b c = e] then
    [b a = (b a) (b c) = b ((a b) c) = b c = e]. *)
Lemma left_inverse s f (e0 : E) a :
  group_axioms s f e0 → a ∈ s → ∃ b, b ∈ s ∧ f b a = e0 ∧ f a b = e0.
Proof.
  intros [Hcl Has Hem Hid Hinv] Ha.
  destruct (Hinv a Ha) as (b & Hb & Hab).
  destruct (Hinv b Hb) as (c & Hc & Hbc).
  exists b. split; [done |]. split; [| done].
  assert (Hba : f b a ∈ s) by auto.
  destruct (Hid (f b a) Hba) as [_ Hr].
  rewrite <- Hr, <- Hbc.
  rewrite <- (Has (f b a) b c) by done.
  rewrite (Has b a b) by done.
  rewrite Hab. destruct (Hid b Hb) as [_ ->]. done.
Qed.

(** A construction that returns has passed every check. *)
Lemma init_returns (self_id : nat) (elems : list E) (o : operation E) (g : Group E) :
  __init__ self_id elems o = inr g →
  oid g = self_id ∧ _elems g = set_ elems ∧ op g = o ∧
  is_callable o = true ∧ parameters o = inr 2 ∧
  group_axioms (_elems g) (call o) (e g).
Proof.
  unfold __init__.
  destruct (is_callable o) eqn:Hcall; [| discriminate]. simpl.
  destruct (parameters o) as [err | n] eqn:Hpar; [discriminate |].
  destruct (n =? 2)%nat eqn:Hn; [| discriminate]. simpl.
  apply Nat.eqb_eq in Hn. subst n.
  destruct (any (_ <$> product2 _)) eqn:Hclosure; [discriminate |].
  destruct (any (_ <$> product3 _)) eqn:Hassoc; [discriminate |].
  destruct (for_break _ _) as [e0|] eqn:Hident; [| discriminate].
  destruct (any (_ <$> set_ elems)) eqn:Hinverse; [discriminate |].
  intros [= <-]. simpl. repeat (split; [done |]).
  apply for_break_Some in Hident as (Hid & before & after & Hsplit & _).
  split.
  - intros a b Ha Hb.
    rewrite any_fmap_false in Hclosure.
    specialize (Hclosure (a, b) ltac:(by apply elem_of_product2)).
    apply negb_false_iff in Hclosure. by apply mem_elem_of in Hclosure.
  - intros a b c Ha Hb Hc.
    rewrite any_fmap_false in Hassoc.
    specialize (Hassoc (a, b, c) ltac:(by apply elem_of_product3)).
    apply negb_false_iff in Hassoc. by apply eqb_eq in Hassoc.
  - rewrite Hsplit. apply elem_of_app. right. left.
  - by apply identity_test.
  - intros a Ha. rewrite any_fmap_false in Hinverse.
    specialize (Hinverse a Ha). apply negb_false_iff in Hinverse.
    apply any_fmap_true in Hinverse as (b & Hb & Hab).
    exists b. split; [done |]. by apply eqb_eq in Hab.
Qed.

(** Conversely, a callable of two parameters over a carrier set that
    satisfies the axioms is accepted, whatever the iteration order, and
    the identity that is cached is the identity of the axioms. *)
Lemma init_accepts (self_id : nat) (elems : list E) (o : operation E) (e0 : E) :
  is_callable o = true → parameters o = inr 2 →
  group_axioms (set_ elems) (call o) e0 →
  __init__ self_id elems o =
    inr {| oid := self_id; _elems := set_ elems; op := o; e := e0 |}.
Proof.
  intros Hcall Hpar [Hcl Has Hem Hid Hinv]. unfold __init__.
  rewrite Hcall, Hpar. simpl.
  destruct (any (_ <$> product2 _)) eqn:Hclosure.
  { apply any_fmap_true in Hclosure as ([a b] & Hab & Hout).
    apply elem_of_product2 in Hab as [Ha Hb]. simpl in Hout.
    apply negb_true_iff in Hout. apply mem_false in Hout. destruct Hout. auto. }
  destruct (any (_ <$> product3 _)) eqn:Hassoc.
  { apply any_fmap_true in Hassoc as ([[a b] c] & Habc & Hne).
    apply elem_of_product3 in Habc as (Ha & Hb & Hc). simpl in Hne.
    apply negb_true_iff in Hne. apply eqb_neq in Hne. destruct Hne. auto. }
  destruct (for_break _ _) as [e1|] eqn:Hident.
  - apply for_break_Some in Hident as (Hid1 & before & after & Hsplit & _).
    assert (He1 : e1 ∈ set_ elems).
    { rewrite Hsplit. apply elem_of_app. right. left. }
    assert (Hid1' := proj1 (identity_test (call o) (set_ elems) e1) Hid1).
    assert (e1 = e0) as -> by (eapply identity_unique; eauto).
    destruct (any (_ <$> set_ elems)) eqn:Hinverse; [| done].
    apply any_fmap_true in Hinverse as (a & Ha & Hnone).
    apply negb_true_iff in Hnone. rewrite any_fmap_false in Hnone.
    destruct (Hinv a Ha) as (b & Hb & Hab).
    specialize (Hnone b Hb). by apply eqb_neq in Hnone.
  - rewrite for_break_None in Hident. specialize (Hident e0 Hem).
    assert (Htest := proj2 (identity_test (call o) (set_ elems) e0) Hid).
    congruence.
Qed.
End axioms.

(** ** The search of [inverse] *)

Section search.
Context {E : Type} `{EqDecision E}.
Implicit Types (g : Group E) (a b elem : E).

Lemma next_filter_inr (P : E → Prop) `{∀ x, Decision (P x)} (l : list E) b :
  next (filter P l) = inr b →
  P b ∧ ∃ before after, l = before ++ b :: after ∧ ∀ a, a ∈ before → ¬ P a.
Proof.
  induction l as [|x l IH]; [discriminate |].
  rewrite filter_cons. destruct (decide (P x)) as [Hx | Hx]; simpl.
  - intros [= ->]. split; [done |]. exists [], l. split; [done |].
    intros a Ha. by apply not_elem_of_nil in Ha.
  - intros Hnext. destruct (IH Hnext) as (Hb & before & after & -> & Hbefore).
    split; [done |]. exists (x :: before), after. split; [done |].
    intros a Ha. apply elem_of_cons in Ha as [-> | Ha]; auto.
Qed.

Lemma next_filter_elem (P : E → Prop) `{∀ x, Decision (P x)} (l : list E) a :
  a ∈ l → P a → ∃ b, next (filter P l) = inr b.
Proof.
  intros Ha HP.
  assert (Hin : a ∈ filter P l) by (by apply list_elem_of_filter).
  destruct (filter P l) as [|b l']; [by apply not_elem_of_nil in Hin |].
  by exists b.
Qed.

(** [inverse] on a member, in terms of the search it runs. *)
Lemma inverse_member g elem :
  elem ∈ _elems g →
  inverse elem g =
    (next (filter (λ a, call (op g) a elem = e g) (_elems g)), g).
Proof.
  intros Hmem. unfold inverse, mbind, method_bind, read_self, lift.
  apply mem_true in Hmem. by rewrite Hmem.
Qed.

Lemma inverse_not_member g elem :
  elem ∉ _elems g →
  inverse elem g =
    (inl (ValueError "the element provided is not a member of the group"), g).
Proof.
  intros Hmem. unfold inverse, mbind, method_bind, read_self, raise.
  apply mem_false in Hmem. by rewrite Hmem.
Qed.

(** On a carrier set that satisfies the axioms, [inverse] returns the first
    left inverse in iteration order. *)
Lemma inverse_first_left_inverse g elem :
  group_axioms (_elems g) (call (op g)) (e g) →
  elem ∈ _elems g →
  ∃ b, inverse elem g = (inr b, g) ∧
    b ∈ _elems g ∧
    call (op g) b elem = e g ∧
    ∃ before after, _elems g = before ++ b :: after ∧
      ∀ a, a ∈ before → call (op g) a elem ≠ e g.
Proof.
  intros Hax Hmem.
  destruct (left_inverse _ _ _ elem Hax Hmem) as (c & Hc & Hleft & _).
  destruct (next_filter_elem (λ a, call (op g) a elem = e g) (_elems g) c Hc Hleft)
    as (b & Hnext).
  exists b. rewrite inverse_member, Hnext by done. split; [done |].
  apply next_filter_inr in Hnext as (Hb & before & after & Hsplit & Hfirst).
  split; [| split; [done | by exists before, after]].
  rewrite Hsplit. apply elem_of_app. right. left.
Qed.

(** [operate]: the membership test, then [reduce]. *)
Lemma operate_members g (args : list E) :
  (∀ x, x ∈ args → x ∈ _elems g) →
  operate args g = (reduce (call (op g)) args, g).
Proof.
  intros Hall. unfold operate, mbind, method_bind, read_self, lift.
  assert (any ((λ elem, negb (mem elem (_elems g))) <$> args) = false) as ->; [| done].
  apply any_fmap_false. intros x Hx. apply negb_false_iff, mem_true. auto.
Qed.

Lemma operate_not_member g (args : list E) x :
  x ∈ args → x ∉ _elems g →
  operate args g =
    (inl (ValueError "all elements must be members of the group"), g).
Proof.
  intros Hx Hout. unfold operate, mbind, method_bind, read_self, raise.
  assert (any ((λ elem, negb (mem elem (_elems g))) <$> args) = true) as ->; [| done].
  apply any_fmap_true. exists x. split; [done |]. by apply negb_true_iff, mem_false.
Qed.

(** A nested application over members stays in a closed carrier set. *)
Lemma nested_closed (s : list E) (f : E → E → E) (e1 : E) (rest_rev : list E) :
  (∀ a b, a ∈ s → b ∈ s → f a b ∈ s) →
  e1 ∈ s → (∀ x, x ∈ rest_rev → x ∈ s) →
  nested f e1 rest_rev ∈ s.
Proof.
  intros Hcl He1. induction rest_rev as [|en before IH]; intros Hrest; simpl.
  - done.
  - apply Hcl.
    + apply IH. intros x Hx. apply Hrest. by right.
    + apply Hrest. left.
Qed.
End search.

(** ** Calls leave the instance as it is *)

Section frame.
Context {E : Type} `{EqDecision E}.
Variable repr_elem : E → string.

Lemma run_query_frame (q : query) (g : Group E) :
  (run_query repr_elem q g).2 = g.
Proof.
  destruct q as [| | | | | | x | [h|s] | [h|s] | [h|s] | [h|s] | [h|s] | [h|s]
                 | xs | x |];
    unfold run_query, fmap, method_fmap, mbind, method_bind, mret, method_ret;
    unfold __le__, __gt__, __ne__, __eq__, __lt__, operate, inverse,
      __repr__, __str__,
      mbind, method_bind, mret, method_ret, read_self, raise, lift;
    simpl; try reflexivity; repeat case_match; simplify_eq/=; reflexivity.
Qed.

Lemma run_queries_frame (qs : list query) (g : Group E) :
  (run_queries repr_elem qs g).2 = g.
Proof.
  induction qs as [|q qs IH]; simpl; [done |].
  pose proof (run_query_frame q g) as Hq.
  destruct (run_query repr_elem q g) as [r g']. simpl in Hq. subst g'.
  destruct (run_queries repr_elem qs g) as [rs g''] eqn:Hrun.
  simpl in IH. by subst g''.
Qed.
End frame.

(** ** Claims *)

Section claims.
Context {E : Type} `{EqDecision E}.
Implicit Types (g : Group E) (o : operation E) (a b elem : E).

(** C1: for a validly constructed Group and a member [elem] of its carrier
    set, some member [a] has [op(a, elem) == identity], so the generator of
    [inverse(elem)] is not empty and [next] does not raise the exhaustion
    error ([StopIteration]). The left inverse comes from the four checks of
    the constructor (closure, associativity, two-sided identity, right
    inverses). *)
Theorem inverse_search_succeeds (self_id : nat) (elems : list E) o g elem :
  __init__ self_id elems o = inr g →
  elem ∈ _elems g →
  (∃ a, a ∈ _elems g ∧ call (op g) a elem = e g) ∧
  next (filter (λ a, call (op g) a elem = e g) (_elems g)) ≠ inl StopIteration ∧
  (inverse elem g).1 ≠ inl StopIteration.
Proof.
  intros Hinit Hmem.
  destruct (init_returns _ _ _ _ Hinit) as (_ & _ & Hop & _ & _ & Hax).
  rewrite <- Hop in Hax.
  destruct (left_inverse _ _ _ elem Hax Hmem) as (b & Hb & Hleft & _).
  destruct (next_filter_elem (λ a, call (op g) a elem = e g) (_elems g) b Hb Hleft)
    as (b' & Hnext).
  split; [by exists b |].
  rewrite inverse_member by done. simpl.
  rewrite Hnext. split; discriminate.
Qed.

(** C3: the identity cached by a successful construction is a member of
    the carrier set and is a two-sided identity:
    [op(e, a) == op(a, e) == a] for every member [a]; [operate(e, a)] and
    [operate(a, e)] return [a] as well. *)
Theorem identity_two_sided (self_id : nat) (elems : list E) o g :
  __init__ self_id elems o = inr g →
  ∃ e0, identity g = (inr e0, g) ∧ e0 ∈ _elems g ∧
    ∀ a, a ∈ _elems g →
      call (op g) e0 a = a ∧ call (op g) a e0 = a ∧
      call (op g) e0 a = call (op g) a e0 ∧
      operate [e0; a] g = (inr a, g) ∧ operate [a; e0] g = (inr a, g).
Proof.
  intros Hinit.
  destruct (init_returns _ _ _ _ Hinit) as (_ & _ & Hop & _ & _ & Hax).
  rewrite <- Hop in Hax. destruct Hax as [_ _ Hem Hid _].
  exists (e g). split; [done |]. split; [done |].
  intros a Ha. destruct (Hid a Ha) as [Hl Hr].
  repeat split; [done | done | congruence | |].
  - rewrite operate_members; [simpl; by rewrite Hl |].
    intros x Hx. apply elem_of_cons in Hx as [-> | Hx]; [done |].
    by apply list_elem_of_singleton in Hx as ->.
  - rewrite operate_members; [simpl; by rewrite Hr |].
    intros x Hx. apply elem_of_cons in Hx as [-> | Hx]; [done |].
    by apply list_elem_of_singleton in Hx as ->.
Qed.

(** C4: for a validly constructed Group and a member [elem],
    [inverse(elem)] returns a member [b] of the carrier set with
    [op(b, elem) == identity], a left inverse of [elem], and [b] is the
    first such element in the iteration order of the set; the Group is left
    as it was. *)
Theorem inverse_returns_left_inverse (self_id : nat) (elems : list E) o g elem :
  __init__ self_id elems o = inr g →
  elem ∈ _elems g →
  ∃ b, inverse elem g = (inr b, g) ∧
    b ∈ _elems g ∧
    call (op g) b elem = e g ∧
    ∃ before after, _elems g = before ++ b :: after ∧
      ∀ a, a ∈ before → call (op g) a elem ≠ e g.
Proof.
  intros Hinit Hmem.
  destruct (init_returns _ _ _ _ Hinit) as (_ & _ & Hop & _ & _ & Hax).
  rewrite <- Hop in Hax. by apply inverse_first_left_inverse.
Qed.

(** C5: for a validly constructed Group and a non-empty argument list
    [e1, ..., en] of members, [operate(e1, ..., en)] returns the left fold
    [op(...op(op(e1, e2), e3)..., en)] in the order given, and that value is
    a member of the carrier set. *)
Theorem operate_left_fold (self_id : nat) (elems : list E) o g (e1 : E) (rest : list E) :
  __init__ self_id elems o = inr g →
  (∀ x, x ∈ e1 :: rest → x ∈ _elems g) →
  operate (e1 :: rest) g = (inr (nested (call (op g)) e1 (reverse rest)), g) ∧
  nested (call (op g)) e1 (reverse rest) = fold_left (call (op g)) rest e1 ∧
  nested (call (op g)) e1 (reverse rest) ∈ _elems g.
Proof.
  intros Hinit Hall.
  destruct (init_returns _ _ _ _ Hinit) as (_ & _ & Hop & _ & _ & Hax).
  rewrite <- Hop in Hax. split; [| split].
  - rewrite operate_members by done. simpl. by rewrite reduce_loop_nested.
  - by rewrite <- reduce_loop_nested, reduce_loop_fold_left.
  - apply nested_closed.
    + apply Hax.
    + apply Hall. left.
    + intros x Hx. apply Hall. right. by apply elem_of_reverse.
Qed.

(** C6: on a validly constructed Group, [operate] raises a [ValueError]
    exactly when some argument is not a member of the carrier set, and
    [inverse] exactly when its argument is not a member; what is raised is
    the membership error of the method, and in every case the attributes of
    the Group are as they were before the call. *)
Theorem membership_error_iff (self_id : nat) (elems : list E) o g :
  __init__ self_id elems o = inr g →
  (∀ args : list E,
     ((∃ msg, (operate args g).1 = inl (ValueError msg)) ↔
      ∃ x, x ∈ args ∧ x ∉ _elems g) ∧
     ((∃ x, x ∈ args ∧ x ∉ _elems g) →
      (operate args g).1 =
        inl (ValueError "all elements must be members of the group")) ∧
     (operate args g).2 = g) ∧
  (∀ elem,
     ((∃ msg, (inverse elem g).1 = inl (ValueError msg)) ↔ elem ∉ _elems g) ∧
     (elem ∉ _elems g →
      (inverse elem g).1 =
        inl (ValueError "the element provided is not a member of the group")) ∧
     (inverse elem g).2 = g).
Proof.
  intros _. split.
  - intros args.
    destruct (decide (Exists (λ x, x ∉ _elems g) args)) as [Hex | Hall].
    + apply Exists_exists in Hex as (x & Hx & Hout).
      rewrite (operate_not_member g args x Hx Hout). simpl.
      repeat split; eauto.
    + assert (Hmem : ∀ x, x ∈ args → x ∈ _elems g).
      { intros x Hx. destruct (decide (x ∈ _elems g)) as [|Hout]; [done |].
        destruct Hall. apply Exists_exists. eauto. }
      rewrite operate_members by done. simpl.
      assert (Hnone : ¬ ∃ x, x ∈ args ∧ x ∉ _elems g).
      { intros (x & Hx & Hout). auto. }
      repeat split; try done.
      intros [msg Hmsg]. destruct args; simpl in Hmsg; discriminate.
  - intros elem. destruct (decide (elem ∈ _elems g)) as [Hmem | Hout].
    + rewrite inverse_member by done. simpl.
      repeat split; try done.
      intros [msg Hmsg]. unfold next in Hmsg.
      destruct (filter _ _); discriminate.
    + rewrite inverse_not_member by done. simpl.
      repeat split; eauto.
Qed.

(** C9: none of the calls that can be made on a constructed Group
    (properties, string conversions, iteration, size, membership, the six
    comparisons, [operate], [inverse], [is_abelian]) changes its attributes,
    whether the call returns or raises: after any sequence of calls the
    carrier set, the operation and the identity are what they were. *)
Theorem queries_do_not_mutate (repr_elem : E → string)
    (self_id : nat) (elems : list E) o g (qs : list (query (E:=E))) :
  __init__ self_id elems o = inr g →
  (∀ q, (run_query repr_elem q g).2 = g) ∧
  (run_queries repr_elem qs g).2 = g ∧
  _elems (run_queries repr_elem qs g).2 = set_ elems ∧
  op (run_queries repr_elem qs g).2 = o ∧
  e (run_queries repr_elem qs g).2 = e g.
Proof.
  intros Hinit.
  destruct (init_returns _ _ _ _ Hinit) as (_ & Hset & Hop & _).
  split; [intros q; apply run_query_frame |].
  rewrite run_queries_frame. done.
Qed.

(** C10: with an empty iterable of elements and a callable of two
    parameters, the closure and associativity checks have no pair and no
    triple to look at, the identity loop has no candidate, and construction
    raises the identity error. *)
Theorem empty_elements_rejected (self_id : nat) o :
  is_callable o = true → parameters o = inr 2 →
  product2 (set_ (@nil E)) = [] ∧
  product3 (set_ (@nil E)) = [] ∧
  __init__ self_id [] o =
    inl (TypeError "the identity property is not satisfied").
Proof.
  intros Hcall Hpar. unfold __init__. rewrite Hcall, Hpar. done.
Qed.

(** C2: two validly constructed Groups with identical element sets are
    equal under the equality that the ordering induces: neither is strictly
    less than the other ([g1 < g2] and [g2 < g1] both return [False], and
    the derived [>=] returns [True] in both directions), whether or not
    their operations are the same function. *)
Theorem same_elements_ordering_equal
    (id1 id2 : nat) (elems1 elems2 : list E) (o1 o2 : operation E) (g1 g2 : Group E) :
  __init__ id1 elems1 o1 = inr g1 →
  __init__ id2 elems2 o2 = inr g2 →
  (∀ x, x ∈ _elems g1 ↔ x ∈ _elems g2) →
  __lt__ (PyGroup g2) g1 = (inr false, g1) ∧
  __lt__ (PyGroup g1) g2 = (inr false, g2) ∧
  ordering_equal g1 g2 = inr true ∧
  ordering_equal g2 g1 = inr true ∧
  __ge__ (PyGroup g2) g1 = (inr true, g1) ∧
  __ge__ (PyGroup g1) g2 = (inr true, g2).
Proof.
  intros _ _ Hsame.
  unfold ordering_equal, __ge__, __lt__, mbind, method_bind, read_self, mret,
    method_ret. simpl.
  rewrite !set_lt_same by (intros x; by rewrite Hsame). done.
Qed.
End claims.

(** ** The examples over the integers *)

Local Open Scope Z_scope.

Ltac pick_member := repeat first [left; reflexivity | right]; reflexivity.

Lemma Z4_members (elems : list Z) :
  (∀ x, x ∈ elems ↔ x ∈ [0; 1; 2; 3]) →
  ∀ x, x ∈ set_ elems ↔ x = 0 ∨ x = 1 ∨ x = 2 ∨ x = 3.
Proof.
  intros Hset x. rewrite elem_of_set_, Hset, !elem_of_cons, elem_of_nil. tauto.
Qed.

(** The integers modulo 4 satisfy the axioms, in every iteration order. *)
Lemma Z4_axioms (elems : list Z) :
  (∀ x, x ∈ elems ↔ x ∈ [0; 1; 2; 3]) →
  group_axioms (set_ elems) (call add_mod4) 0.
Proof.
  intros Hset. pose proof (Z4_members elems Hset) as Hm. split.
  - intros a b Ha Hb. apply Hm in Ha, Hb. apply Hm.
    destruct Ha as [-> | [-> | [-> | ->]]], Hb as [-> | [-> | [-> | ->]]];
      vm_compute; pick_member.
  - intros a b c Ha Hb Hc. apply Hm in Ha, Hb, Hc.
    destruct Ha as [-> | [-> | [-> | ->]]], Hb as [-> | [-> | [-> | ->]]],
             Hc as [-> | [-> | [-> | ->]]]; reflexivity.
  - apply Hm. by left.
  - intros a Ha. apply Hm in Ha.
    destruct Ha as [-> | [-> | [-> | ->]]]; split; reflexivity.
  - intros a Ha. apply Hm in Ha.
    destruct Ha as [-> | [-> | [-> | ->]]];
      [exists 0 | exists 3 | exists 2 | exists 1];
      (split; [apply Hm; pick_member | reflexivity]).
Qed.

(** C7: when [op(a, b)] is outside the set for some members [a] and [b],
    and [op] is a callable of two parameters, construction raises the
    closure error; so does [Group({0, 1}, lambda a, b: a + b)], because
    [1 + 1 = 2] is not in [{0, 1}]. *)
Theorem closure_violation_rejected :
  (∀ (E : Type) (EqDec : EqDecision E) (self_id : nat) (elems : list E)
     (o : operation E) (a b : E),
     is_callable o = true → parameters o = inr 2%nat →
     a ∈ elems → b ∈ elems → call o a b ∉ elems →
     __init__ self_id elems o =
       inl (TypeError "the closure property is not satisfied")) ∧
  (∀ self_id : nat,
     1 ∈ [0; 1] ∧ call add 1 1 = 2 ∧ (2 ∉ [0; 1]) ∧
     __init__ self_id [0; 1] add =
       inl (TypeError "the closure property is not satisfied")).
Proof.
  split.
  - intros E EqDec self_id elems o a b Hcall Hpar Ha Hb Hout.
    unfold __init__. rewrite Hcall, Hpar. simpl.
    assert (any ((λ ab : E * E, negb (mem (call o ab.1 ab.2) (set_ elems)))
                 <$> product2 (set_ elems)) = true) as ->; [| done].
    apply any_fmap_true. exists (a, b). split.
    + apply elem_of_product2. by rewrite !elem_of_set_.
    + simpl. apply negb_true_iff, mem_false. by rewrite elem_of_set_.
  - intros self_id. split; [by right; left |]. split; [done |].
    split; [| reflexivity].
    rewrite !elem_of_cons, elem_of_nil. intros [? | [? | []]]; discriminate.
Qed.

(** C8: [Group({0, 1, 2, 3}, lambda a, b: (a + b) % 4)] is constructed, in
    whatever order the set is iterated; its identity is [0], [is_abelian()]
    returns [True], [inverse(1)] returns [3] and [inverse(2)] returns [2]. *)
Theorem Z4_example (self_id : nat) (elems : list Z) :
  (∀ x, x ∈ elems ↔ x ∈ [0; 1; 2; 3]) →
  ∃ g, __init__ self_id elems add_mod4 = inr g ∧
    identity g = (inr 0, g) ∧
    is_abelian g = (inr true, g) ∧
    inverse 1 g = (inr 3, g) ∧
    inverse 2 g = (inr 2, g).
Proof.
  intros Hset.
  pose proof (Z4_axioms elems Hset) as Hax.
  pose proof (Z4_members elems Hset) as Hm.
  set (g := {| oid := self_id; _elems := set_ elems; op := add_mod4; e := 0 |}).
  exists g. split; [by apply init_accepts |]. split; [done |]. split.
  { unfold is_abelian, mbind, method_bind, read_self, mret, method_ret.
    do 2 f_equal. apply all_fmap_true. intros [a b] _. apply eqb_true. simpl.
    by rewrite Z.add_comm. }
  split.
  - destruct (inverse_first_left_inverse g 1 Hax) as (b & -> & Hb & Hleft & _).
    { apply Hm. pick_member. }
    apply Hm in Hb. simpl in Hleft.
    destruct Hb as [-> | [-> | [-> | ->]]]; first [discriminate | reflexivity].
  - destruct (inverse_first_left_inverse g 2 Hax) as (b & -> & Hb & Hleft & _).
    { apply Hm. pick_member. }
    apply Hm in Hb. simpl in Hleft.
    destruct Hb as [-> | [-> | [-> | ->]]]; first [discriminate | reflexivity].
Qed.

(** ** The theorems at the integers modulo 4 *)

Lemma Z4_constructed (self_id : nat) :
  __init__ self_id [0; 1; 2; 3] add_mod4 = inr (Z4 self_id).
Proof. reflexivity. Defined.

Lemma Z4_member (x : Z) : mem x [0; 1; 2; 3] = true → x ∈ _elems (Z4 0).
Proof. apply mem_elem_of. Defined.

Lemma inverse_search_succeeds_witness :
  __init__ 0 [0; 1; 2; 3] add_mod4 = inr (Z4 0) ∧
  1 ∈ _elems (Z4 0) ∧
  (inverse 1 (Z4 0)).1 ≠ inl StopIteration.
Proof.
  split; [reflexivity |]. split; [apply Z4_member; reflexivity |].
  apply (inverse_search_succeeds 0 [0; 1; 2; 3] add_mod4 (Z4 0) 1).
  - reflexivity.
  - apply Z4_member; reflexivity.
Defined.

Lemma identity_two_sided_witness :
  __init__ 0 [0; 1; 2; 3] add_mod4 = inr (Z4 0) ∧
  ∃ e0, identity (Z4 0) = (inr e0, Z4 0) ∧ e0 ∈ _elems (Z4 0) ∧
    ∀ a, a ∈ _elems (Z4 0) →
      call (op (Z4 0)) e0 a = a ∧ call (op (Z4 0)) a e0 = a ∧
      call (op (Z4 0)) e0 a = call (op (Z4 0)) a e0 ∧
      operate [e0; a] (Z4 0) = (inr a, Z4 0) ∧
      operate [a; e0] (Z4 0) = (inr a, Z4 0).
Proof.
  split; [reflexivity |].
  apply (identity_two_sided 0 [0; 1; 2; 3] add_mod4 (Z4 0)). reflexivity.
Defined.

Lemma inverse_returns_left_inverse_witness :
  __init__ 0 [0; 1; 2; 3] add_mod4 = inr (Z4 0) ∧
  3 ∈ _elems (Z4 0) ∧
  ∃ b, inverse 3 (Z4 0) = (inr b, Z4 0) ∧
    b ∈ _elems (Z4 0) ∧
    call (op (Z4 0)) b 3 = e (Z4 0) ∧
    ∃ before after, _elems (Z4 0) = before ++ b :: after ∧
      ∀ a, a ∈ before → call (op (Z4 0)) a 3 ≠ e (Z4 0).
Proof.
  split; [reflexivity |]. split; [apply Z4_member; reflexivity |].
  apply (inverse_returns_left_inverse 0 [0; 1; 2; 3] add_mod4 (Z4 0) 3).
  - reflexivity.
  - apply Z4_member; reflexivity.
Defined.

Lemma Z4_members_123 : ∀ x, x ∈ [1; 2; 3; 3] → x ∈ _elems (Z4 0).
Proof.
  intros x Hx. apply Z4_member.
  rewrite !elem_of_cons, elem_of_nil in Hx.
  destruct Hx as [-> | [-> | [-> | [-> | []]]]]; reflexivity.
Defined.

Lemma operate_left_fold_witness :
  __init__ 0 [0; 1; 2; 3] add_mod4 = inr (Z4 0) ∧
  (∀ x, x ∈ [1; 2; 3; 3] → x ∈ _elems (Z4 0)) ∧
  operate [1; 2; 3; 3] (Z4 0) =
    (inr (nested (call (op (Z4 0))) 1 (reverse [2; 3; 3])), Z4 0) ∧
  nested (call (op (Z4 0))) 1 (reverse [2; 3; 3]) =
    fold_left (call (op (Z4 0))) [2; 3; 3] 1 ∧
  nested (call (op (Z4 0))) 1 (reverse [2; 3; 3]) ∈ _elems (Z4 0).
Proof.
  split; [reflexivity |]. split; [exact Z4_members_123 |].
  apply (operate_left_fold 0 [0; 1; 2; 3] add_mod4 (Z4 0) 1 [2; 3; 3]).
  - reflexivity.
  - exact Z4_members_123.
Defined.

Lemma membership_error_iff_witness :
  __init__ 0 [0; 1; 2; 3] add_mod4 = inr (Z4 0) ∧
  (∀ args : list Z,
     ((∃ msg, (operate args (Z4 0)).1 = inl (ValueError msg)) ↔
      ∃ x, x ∈ args ∧ x ∉ _elems (Z4 0)) ∧
     ((∃ x, x ∈ args ∧ x ∉ _elems (Z4 0)) →
      (operate args (Z4 0)).1 =
        inl (ValueError "all elements must be members of the group")) ∧
     (operate args (Z4 0)).2 = Z4 0) ∧
  (∀ elem,
     ((∃ msg, (inverse elem (Z4 0)).1 = inl (ValueError msg)) ↔
      elem ∉ _elems (Z4 0)) ∧
     (elem ∉ _elems (Z4 0) →
      (inverse elem (Z4 0)).1 =
        inl (ValueError "the element provided is not a member of the group")) ∧
     (inverse elem (Z4 0)).2 = Z4 0).
Proof.
  split; [reflexivity |].
  apply (membership_error_iff 0 [0; 1; 2; 3] add_mod4 (Z4 0)). reflexivity.
Defined.

Lemma queries_do_not_mutate_witness :
  __init__ 0 [0; 1; 2; 3] add_mod4 = inr (Z4 0) ∧
  (run_queries (λ _, "n")
     [QLen; QInverse 5; QOperate [1; 2]; QGt (PySet [1]); QRepr; QIsAbelian]
     (Z4 0)).2 = Z4 0.
Proof.
  split; [reflexivity |].
  apply (queries_do_not_mutate (λ _, "n") 0 [0; 1; 2; 3] add_mod4 (Z4 0)).
  reflexivity.
Defined.

Lemma empty_elements_rejected_witness :
  is_callable add = true ∧ parameters add = inr 2%nat ∧
  __init__ 0 [] add =
    inl (TypeError "the identity property is not satisfied").
Proof.
  split; [reflexivity |]. split; [reflexivity |].
  apply (empty_elements_rejected 0 add); reflexivity.
Defined.

Lemma same_elements_ordering_equal_witness :
  __init__ 1 [0; 1; 2; 3] add_mod4 = inr (Z4 1) ∧
  __init__ 2 [3; 2; 1; 0] xor = inr V4 ∧
  (∀ x, x ∈ _elems (Z4 1) ↔ x ∈ _elems V4) ∧
  __lt__ (PyGroup V4) (Z4 1) = (inr false, Z4 1) ∧
  __lt__ (PyGroup (Z4 1)) V4 = (inr false, V4) ∧
  ordering_equal (Z4 1) V4 = inr true ∧
  ordering_equal V4 (Z4 1) = inr true ∧
  __ge__ (PyGroup V4) (Z4 1) = (inr true, Z4 1) ∧
  __ge__ (PyGroup (Z4 1)) V4 = (inr true, V4).
Proof.
  assert (Hsame : ∀ x, x ∈ _elems (Z4 1) ↔ x ∈ _elems V4).
  { intros x. simpl. rewrite !elem_of_cons, !elem_of_nil. tauto. }
  split; [reflexivity |]. split; [reflexivity |]. split; [exact Hsame |].
  apply (same_elements_ordering_equal 1 2 [0; 1; 2; 3] [3; 2; 1; 0]
           add_mod4 xor (Z4 1) V4).
  - reflexivity.
  - reflexivity.
  - exact Hsame.
Defined.

Lemma closure_violation_rejected_witness :
  is_callable add = true ∧ parameters add = inr 2%nat ∧
  1 ∈ [0; 1] ∧ (1 + 1 ∉ [0; 1]) ∧
  __init__ 0 [0; 1] add =
    inl (TypeError "the closure property is not satisfied").
Proof.
  assert (Hin : 1 ∈ [0; 1]) by (apply mem_elem_of; reflexivity).
  assert (Hout : 1 + 1 ∉ [0; 1]) by (apply mem_false; reflexivity).
  split; [reflexivity |]. split; [reflexivity |].
  split; [exact Hin |]. split; [exact Hout |].
  apply (proj1 closure_violation_rejected Z _ 0%nat [0; 1] add 1 1).
  - reflexivity.
  - reflexivity.
  - exact Hin.
  - exact Hin.
  - exact Hout.
Defined.

Lemma Z4_example_witness :
  (∀ x, x ∈ [2; 0; 3; 1; 0] ↔ x ∈ [0; 1; 2; 3]) ∧
  ∃ g, __init__ 0 [2; 0; 3; 1; 0] add_mod4 = inr g ∧
    identity g = (inr 0, g) ∧
    is_abelian g = (inr true, g) ∧
    inverse 1 g = (inr 3, g) ∧
    inverse 2 g = (inr 2, g).
Proof.
  assert (Hsame : ∀ x, x ∈ [2; 0; 3; 1; 0] ↔ x ∈ [0; 1; 2; 3]).
  { intros x. rewrite !elem_of_cons, !elem_of_nil. tauto. }
  split; [exact Hsame |].
  apply (Z4_example 0 [2; 0; 3; 1; 0]). exact Hsame.
Defined.

Local Close Scope Z_scope.

(** * Further properties of the class *)

(** ** Consequences of the axioms *)

Section group_theory.
Context {E : Type} `{EqDecision E}.
Implicit Types (s : list E) (f : E → E → E) (a b c : E) (g : Group E).

(** A left inverse and a right inverse of the same element are equal:
    [b = b (a c) = (b a) c = c]. *)
Lemma inverses_agree s f (e0 : E) a b c :
  group_axioms s f e0 → a ∈ s → b ∈ s → c ∈ s →
  f b a = e0 → f a c = e0 → b = c.
Proof.
  intros [Hcl Has Hem Hid Hinv] Ha Hb Hc Hba Hac.
  destruct (Hid b Hb) as [_ Hbe]. destruct (Hid c Hc) as [Hec _].
  rewrite <- Hbe, <- Hac, <- (Has b a c), Hba by done. done.
Qed.

(** [inverse] returns the one element that is a left inverse. *)
Lemma inverse_value g a b :
  group_axioms (_elems g) (call (op g)) (e g) →
  a ∈ _elems g → b ∈ _elems g → call (op g) b a = e g →
  inverse a g = (inr b, g).
Proof.
  intros Hax Ha Hb Hba.
  destruct (inverse_first_left_inverse g a Hax Ha) as (b' & -> & Hb' & Hb'a & _).
  destruct (left_inverse _ _ _ a Hax Ha) as (c & Hc & _ & Hac).
  rewrite (inverses_agree _ _ _ a b' c Hax) by done.
  rewrite (inverses_agree _ _ _ a b c Hax) by done. done.
Qed.

(** ... and what it returns is a right inverse as well. *)
Lemma inverse_result g a b :
  group_axioms (_elems g) (call (op g)) (e g) →
  a ∈ _elems g → inverse a g = (inr b, g) →
  b ∈ _elems g ∧ call (op g) b a = e g ∧ call (op g) a b = e g.
Proof.
  intros Hax Ha Hinv.
  destruct (inverse_first_left_inverse g a Hax Ha) as (b' & Hb'eq & Hb' & Hb'a & _).
  rewrite Hinv in Hb'eq. injection Hb'eq as <-.
  destruct (left_inverse _ _ _ a Hax Ha) as (c & Hc & _ & Hac).
  rewrite (inverses_agree _ _ _ a b c Hax) at 3 by done. done.
Qed.

(** The axioms of a constructed Group, on its own attributes. *)
Lemma init_axioms (self_id : nat) (elems : list E) (o : operation E) g :
  __init__ self_id elems o = inr g →
  group_axioms (_elems g) (call (op g)) (e g).
Proof.
  intros Hinit.
  destruct (init_returns _ _ _ _ Hinit) as (_ & _ & Hop & _ & _ & Hax).
  by rewrite Hop.
Qed.

(** The axioms depend on the members of the carrier set only. *)
Lemma group_axioms_members s1 s2 f (e0 : E) :
  (∀ x, x ∈ s1 ↔ x ∈ s2) → group_axioms s1 f e0 → group_axioms s2 f e0.
Proof.
  intros Hsame [Hcl Has Hem Hid Hinv]. split.
  - intros a b Ha Hb. apply Hsame. apply Hcl; by apply Hsame.
  - intros a b c Ha Hb Hc. apply Has; by apply Hsame.
  - by apply Hsame.
  - intros a Ha. apply Hid. by apply Hsame.
  - intros a Ha. destruct (Hinv a) as (b & Hb & Hab); [by apply Hsame |].
    exists b. split; [by apply Hsame | done].
Qed.
End group_theory.

(** ** The checks of the constructor, one by one *)

Lemma bool_eq_iff (x y : bool) : (x = true ↔ y = true) → x = y.
Proof. destruct x, y; intros [H1 H2]; auto; symmetry; auto. Qed.

Lemma any_fmap_members {A} (f f' : A → bool) (l l' : list A) :
  (∀ x, x ∈ l ↔ x ∈ l') → (∀ x, x ∈ l → f x = f' x) →
  any (f <$> l) = any (f' <$> l').
Proof.
  intros Hsame Hext. apply bool_eq_iff. rewrite !any_fmap_true.
  split; intros (x & Hx & Hfx); exists x.
  - split; [by apply Hsame | by rewrite <- Hext].
  - apply Hsame in Hx. split; [done | by rewrite Hext].
Qed.

Lemma all_fmap_members {A} (f f' : A → bool) (l l' : list A) :
  (∀ x, x ∈ l ↔ x ∈ l') → (∀ x, x ∈ l → f x = f' x) →
  all (f <$> l) = all (f' <$> l').
Proof.
  intros Hsame Hext. apply bool_eq_iff. rewrite !all_fmap_true.
  split; intros Hall x Hx.
  - apply Hsame in Hx. rewrite <- Hext by done. auto.
  - rewrite Hext by done. apply Hall. by apply Hsame.
Qed.

Section checks.
Context {E : Type} `{EqDecision E}.
Implicit Types (s l : list E) (f : E → E → E) (a b c : E) (o : operation E).

Lemma mem_members a s s' : (∀ x, x ∈ s ↔ x ∈ s') → mem a s = mem a s'.
Proof.
  intros Hsame. apply bool_eq_iff. rewrite !mem_true. apply Hsame.
Qed.

Lemma product2_members s s' :
  (∀ x, x ∈ s ↔ x ∈ s') → ∀ p, p ∈ product2 s ↔ p ∈ product2 s'.
Proof.
  intros Hsame [a b]. rewrite !elem_of_product2, !Hsame. done.
Qed.

Lemma product3_members s s' :
  (∀ x, x ∈ s ↔ x ∈ s') → ∀ p, p ∈ product3 s ↔ p ∈ product3 s'.
Proof.
  intros Hsame [[a b] c]. rewrite !elem_of_product3, !Hsame. done.
Qed.

(** The closure check finds nothing exactly on a closed set. *)
Lemma closure_check s f :
  any ((λ ab : E * E, negb (mem (f ab.1 ab.2) s)) <$> product2 s) = false ↔
  ∀ a b, a ∈ s → b ∈ s → f a b ∈ s.
Proof.
  rewrite any_fmap_false. split.
  - intros Hall a b Ha Hb.
    specialize (Hall (a, b) ltac:(by apply elem_of_product2)).
    apply negb_false_iff in Hall. by apply mem_elem_of in Hall.
  - intros Hcl [a b] Hab. apply elem_of_product2 in Hab as [Ha Hb].
    apply negb_false_iff, mem_true. auto.
Qed.

(** The associativity check finds nothing exactly when every triple of
    members associates. *)
Lemma assoc_check s f :
  any ((λ abc : E * E * E,
          negb (eqb_ (f (f abc.1.1 abc.1.2) abc.2) (f abc.1.1 (f abc.1.2 abc.2))))
       <$> product3 s) = false ↔
  ∀ a b c, a ∈ s → b ∈ s → c ∈ s → f (f a b) c = f a (f b c).
Proof.
  rewrite any_fmap_false. split.
  - intros Hall a b c Ha Hb Hc.
    specialize (Hall (a, b, c) ltac:(by apply elem_of_product3)).
    apply negb_false_iff in Hall. by apply eqb_eq in Hall.
  - intros Has [[a b] c] Habc. apply elem_of_product3 in Habc as (Ha & Hb & Hc).
    apply negb_false_iff, eqb_true. auto.
Qed.

(** The identity loop stops at the two-sided identity when there is one. *)
Lemma identity_loop_found s f (e0 : E) :
  e0 ∈ s → (∀ a, a ∈ s → f e0 a = a ∧ f a e0 = a) →
  for_break (λ x, all ((λ a, eqb_ (f x a) (f a x) && eqb_ (f a x) a) <$> s)) s
  = Some e0.
Proof.
  intros Hem Hid.
  destruct (for_break _ s) as [e1|] eqn:Hloop.
  - apply for_break_Some in Hloop as (Hid1 & before & after & Hsplit & _).
    assert (He1 : e1 ∈ s) by (rewrite Hsplit; apply elem_of_app; right; left).
    assert (Hid1' := proj1 (identity_test f s e1) Hid1).
    f_equal. eapply identity_unique; eauto.
  - rewrite for_break_None in Hloop. specialize (Hloop e0 Hem).
    assert (Htest := proj2 (identity_test f s e0) Hid). simpl in Hloop.
    congruence.
Qed.

(** ... and runs into its [else] branch when there is none. *)
Lemma identity_loop_none s f :
  (¬ ∃ x, x ∈ s ∧ ∀ a, a ∈ s → f x a = a ∧ f a x = a) →
  for_break (λ x, all ((λ a, eqb_ (f x a) (f a x) && eqb_ (f a x) a) <$> s)) s
  = None.
Proof.
  intros Hnone. apply for_break_None. intros x Hx.
  destruct (all _) eqn:Htest; [| done].
  destruct Hnone. exists x. split; [done |].
  exact (proj1 (identity_test f s x) Htest).
Qed.

(** The inverse check finds nothing exactly when every member has a right
    inverse. *)
Lemma inverse_check s f (e0 : E) :
  any ((λ a, negb (any ((λ b, eqb_ (f a b) e0) <$> s))) <$> s) = false ↔
  ∀ a, a ∈ s → ∃ b, b ∈ s ∧ f a b = e0.
Proof.
  rewrite any_fmap_false. split.
  - intros Hall a Ha. specialize (Hall a Ha). apply negb_false_iff in Hall.
    apply any_fmap_true in Hall as (b & Hb & Hab).
    exists b. split; [done | by apply eqb_eq in Hab].
  - intros Hinv a Ha. destruct (Hinv a Ha) as (b & Hb & Hab).
    apply negb_false_iff, any_fmap_true. exists b. split; [done |].
    by apply eqb_true.
Qed.
End checks.

(** ** Construction *)

Section construction.
Context {E : Type} `{EqDecision E}.
Implicit Types (l elems : list E) (a b c : E) (o : operation E) (g : Group E).

(** The constructor with its local definitions expanded. *)
Lemma init_unfold (self_id : nat) elems o :
  __init__ self_id elems o =
  if negb (is_callable o) then
    inl (TypeError "operation must be callable and take 2 arguments")
  else
  match parameters o with
  | inl err => inl err
  | inr n =>
  if negb (n =? 2) then
    inl (TypeError "operation must be callable and take 2 arguments")
  else if any ((λ ab : E * E, negb (mem (call o ab.1 ab.2) (set_ elems)))
               <$> product2 (set_ elems)) then
    inl (TypeError "the closure property is not satisfied")
  else if any ((λ abc : E * E * E,
                  negb (eqb_ (call o (call o abc.1.1 abc.1.2) abc.2)
                             (call o abc.1.1 (call o abc.1.2 abc.2))))
               <$> product3 (set_ elems)) then
    inl (TypeError "the associativity property is not satisfied")
  else
    match for_break
            (λ x, all ((λ a, eqb_ (call o x a) (call o a x) && eqb_ (call o a x) a)
                       <$> set_ elems))
            (set_ elems) with
    | None => inl (TypeError "the identity property is not satisfied")
    | Some e0 =>
      if any ((λ a, negb (any ((λ b, eqb_ (call o a b) e0) <$> set_ elems)))
              <$> set_ elems) then
        inl (TypeError "the inverse property is not satisfied")
      else
        inr {| oid := self_id; _elems := set_ elems; op := o; e := e0 |}
    end
  end.
Proof. reflexivity. Qed.

Lemma closed_set_ elems o :
  (∀ a b, a ∈ elems → b ∈ elems → call o a b ∈ elems) →
  ∀ a b, a ∈ set_ elems → b ∈ set_ elems → call o a b ∈ set_ elems.
Proof.
  intros Hcl a b. rewrite !elem_of_set_. apply Hcl.
Qed.

Lemma assoc_set_ elems o :
  (∀ a b c, a ∈ elems → b ∈ elems → c ∈ elems →
     call o (call o a b) c = call o a (call o b c)) →
  ∀ a b c, a ∈ set_ elems → b ∈ set_ elems → c ∈ set_ elems →
     call o (call o a b) c = call o a (call o b c).
Proof.
  intros Has a b c. rewrite !elem_of_set_. apply Has.
Qed.

(** X1: construction returns a Group exactly when the operation is a
    callable of two parameters and the members of [elems] satisfy closure,
    associativity, two-sided identity and right inverses; the Group then
    holds the set of [elems], the operation and that identity. *)
Theorem init_returns_iff (self_id : nat) elems o g :
  __init__ self_id elems o = inr g ↔
  is_callable o = true ∧ parameters o = inr 2 ∧
  group_axioms elems (call o) (e g) ∧
  g = {| oid := self_id; _elems := set_ elems; op := o; e := e g |}.
Proof.
  split.
  - intros Hinit.
    destruct (init_returns _ _ _ _ Hinit) as (Hid & Hset & Hop & Hcall & Hpar & Hax).
    split; [done |]. split; [done |]. split.
    + apply (group_axioms_members (_elems g)); [| done].
      intros x. by rewrite Hset, elem_of_set_.
    + destruct g as [i s o' e0]. simpl in *. by subst.
  - intros (Hcall & Hpar & Hax & ->). simpl in *.
    apply init_accepts; [done | done |].
    apply (group_axioms_members elems); [| done].
    intros x. by rewrite elem_of_set_.
Qed.

(** X2: the operation check comes first, whatever the elements are. A
    callable for which [signature] returns is rejected with the operation
    error exactly when its number of parameters is not two; an object that
    is not callable is rejected with the operation error without its
    signature being asked for; and when [signature] raises for a callable,
    that exception leaves the constructor as it is and no axiom is
    checked. *)
Theorem operation_check_first (self_id : nat) elems o :
  (is_callable o = false →
   __init__ self_id elems o =
     inl (TypeError "operation must be callable and take 2 arguments")) ∧
  (∀ err, is_callable o = true → parameters o = inl err →
   __init__ self_id elems o = inl err) ∧
  (∀ n, is_callable o = true → parameters o = inr n →
   (__init__ self_id elems o =
      inl (TypeError "operation must be callable and take 2 arguments") ↔
    n ≠ 2)).
Proof.
  rewrite init_unfold. split; [by intros -> |]. split.
  - intros err -> ->. done.
  - intros n -> ->. simpl. split.
    + destruct (n =? 2) eqn:Hn; [| intros _; by apply Nat.eqb_neq].
      simpl. repeat case_match; discriminate.
    + intros Hn. apply Nat.eqb_neq in Hn. by rewrite Hn.
Qed.

(** X3: on a closed set, a triple of members that does not associate makes
    construction raise the associativity error. *)
Theorem associativity_violation_rejected (self_id : nat) elems o a b c :
  is_callable o = true → parameters o = inr 2 →
  (∀ x y, x ∈ elems → y ∈ elems → call o x y ∈ elems) →
  a ∈ elems → b ∈ elems → c ∈ elems →
  call o (call o a b) c ≠ call o a (call o b c) →
  __init__ self_id elems o =
    inl (TypeError "the associativity property is not satisfied").
Proof.
  intros Hcall Hpar Hcl Ha Hb Hc Hne.
  rewrite init_unfold, Hcall, Hpar. simpl.
  rewrite (proj2 (closure_check (set_ elems) (call o)) (closed_set_ _ _ Hcl)).
  destruct (any (_ <$> product3 _)) eqn:Hassoc; [done |].
  apply (proj1 (assoc_check (set_ elems) (call o))) with (a := a) (b := b) (c := c)
    in Hassoc; rewrite ?elem_of_set_; done.
Qed.

(** X4: on a closed set with an associative operation, construction raises
    the identity error when no member is a two-sided identity. *)
Theorem missing_identity_rejected (self_id : nat) elems o :
  is_callable o = true → parameters o = inr 2 →
  (∀ x y, x ∈ elems → y ∈ elems → call o x y ∈ elems) →
  (∀ x y z, x ∈ elems → y ∈ elems → z ∈ elems →
     call o (call o x y) z = call o x (call o y z)) →
  (¬ ∃ x, x ∈ elems ∧ ∀ a, a ∈ elems → call o x a = a ∧ call o a x = a) →
  __init__ self_id elems o =
    inl (TypeError "the identity property is not satisfied").
Proof.
  intros Hcall Hpar Hcl Has Hnone.
  rewrite init_unfold, Hcall, Hpar. simpl.
  rewrite (proj2 (closure_check (set_ elems) (call o)) (closed_set_ _ _ Hcl)).
  rewrite (proj2 (assoc_check (set_ elems) (call o)) (assoc_set_ _ _ Has)).
  rewrite identity_loop_none; [done |].
  intros (x & Hx & Hid). apply Hnone. exists x.
  split; [by apply elem_of_set_ |].
  intros a' Ha'. apply Hid. by apply elem_of_set_.
Qed.

(** X5: on a closed set with an associative operation and a two-sided
    identity, a member without right inverse makes construction raise the
    inverse error. *)
Theorem missing_inverse_rejected (self_id : nat) elems o (e0 : E) a :
  is_callable o = true → parameters o = inr 2 →
  (∀ x y, x ∈ elems → y ∈ elems → call o x y ∈ elems) →
  (∀ x y z, x ∈ elems → y ∈ elems → z ∈ elems →
     call o (call o x y) z = call o x (call o y z)) →
  e0 ∈ elems → (∀ x, x ∈ elems → call o e0 x = x ∧ call o x e0 = x) →
  a ∈ elems → (∀ b, b ∈ elems → call o a b ≠ e0) →
  __init__ self_id elems o =
    inl (TypeError "the inverse property is not satisfied").
Proof.
  intros Hcall Hpar Hcl Has Hem Hid Ha Hnone.
  rewrite init_unfold, Hcall, Hpar. simpl.
  rewrite (proj2 (closure_check (set_ elems) (call o)) (closed_set_ _ _ Hcl)).
  rewrite (proj2 (assoc_check (set_ elems) (call o)) (assoc_set_ _ _ Has)).
  rewrite (identity_loop_found (set_ elems) (call o) e0).
  - destruct (any _) eqn:Hinverse; [done |].
    destruct (proj1 (inverse_check (set_ elems) (call o) e0) Hinverse a)
      as (b & Hb & Hab); [by apply elem_of_set_ |].
    destruct (Hnone b (proj1 (elem_of_set_ _ _) Hb) Hab).
  - by apply elem_of_set_.
  - intros x Hx. apply Hid. exact (proj1 (elem_of_set_ _ _) Hx).
Qed.
End construction.

(** ** Construction does not depend on the iteration order *)

Section order.
Context {E : Type} `{EqDecision E}.
Implicit Types (s l : list E) (f : E → E → E) (o : operation E).

Lemma identity_loop_members s s' f :
  (∀ x, x ∈ s ↔ x ∈ s') →
  for_break (λ x, all ((λ a, eqb_ (f x a) (f a x) && eqb_ (f a x) a) <$> s)) s =
  for_break (λ x, all ((λ a, eqb_ (f x a) (f a x) && eqb_ (f a x) a) <$> s')) s'.
Proof.
  intros Hsame.
  destruct (for_break _ s) as [e1|] eqn:Hloop.
  - apply for_break_Some in Hloop as (Hid1 & before & after & Hsplit & _).
    assert (He1 : e1 ∈ s) by (rewrite Hsplit; apply elem_of_app; right; left).
    assert (Hid1' := proj1 (identity_test f s e1) Hid1).
    symmetry. apply identity_loop_found; [by apply Hsame |].
    intros a Ha. apply Hid1'. by apply Hsame.
  - symmetry. apply identity_loop_none. intros (x & Hx & Hid).
    rewrite for_break_None in Hloop. apply Hsame in Hx.
    specialize (Hloop x Hx). simpl in Hloop.
    assert (all ((λ a, eqb_ (f x a) (f a x) && eqb_ (f a x) a) <$> s) = true);
      [| congruence].
    apply identity_test. intros a Ha. apply Hid. by apply Hsame.
Qed.

(** X6: two iterables with the same members give the same outcome: the
    same error, or two Groups with the same members, the same operation and
    the same identity. Neither the iteration order of the set nor
    duplicates in the iterable matter. *)
Theorem init_order_independent (self_id : nat) (l1 l2 : list E) o :
  (∀ x, x ∈ l1 ↔ x ∈ l2) →
  match __init__ self_id l1 o, __init__ self_id l2 o with
  | inl err1, inl err2 => err1 = err2
  | inr g1, inr g2 =>
    oid g1 = oid g2 ∧ op g1 = op g2 ∧ e g1 = e g2 ∧
    ∀ x, x ∈ _elems g1 ↔ x ∈ _elems g2
  | _, _ => False
  end.
Proof.
  intros Hsame.
  assert (Hset : ∀ x, x ∈ set_ l1 ↔ x ∈ set_ l2).
  { intros x. by rewrite !elem_of_set_. }
  rewrite !init_unfold.
  destruct (negb (is_callable o)); [done |].
  destruct (parameters o) as [err | n]; [done |].
  destruct (negb (n =? 2)); [done |].
  rewrite (any_fmap_members
             (λ ab : E * E, negb (mem (call o ab.1 ab.2) (set_ l1)))
             (λ ab : E * E, negb (mem (call o ab.1 ab.2) (set_ l2)))
             (product2 (set_ l1)) (product2 (set_ l2)));
    [| by apply product2_members
     | intros ab _; f_equal; by apply mem_members].
  destruct (any (_ <$> product2 _)); [done |].
  rewrite (any_fmap_members _ _ (product3 (set_ l1)) (product3 (set_ l2))
             (product3_members _ _ Hset) (λ _ _, eq_refl)).
  destruct (any (_ <$> product3 _)); [done |].
  rewrite (identity_loop_members (set_ l1) (set_ l2) (call o) Hset).
  destruct (for_break _ _) as [e0|]; [| done].
  rewrite (any_fmap_members
             (λ a, negb (any ((λ b, eqb_ (call o a b) e0) <$> set_ l1)))
             (λ a, negb (any ((λ b, eqb_ (call o a b) e0) <$> set_ l2)))
             (set_ l1) (set_ l2));
    [| done
     | intros a _; f_equal; by apply any_fmap_members].
  destruct (any _); done.
Qed.
End order.

(** ** [inverse], [operate] and [is_abelian] on a constructed Group *)

Section algebra.
Context {E : Type} `{EqDecision E}.
Implicit Types (s l elems : list E) (f : E → E → E) (a b c : E)
  (o : operation E) (g : Group E).

Lemma reduce_loop_closed s f (value : E) (it : list E) :
  (∀ a b, a ∈ s → b ∈ s → f a b ∈ s) →
  value ∈ s → (∀ x, x ∈ it → x ∈ s) →
  reduce_loop f value it ∈ s.
Proof.
  intros Hcl Hv Hit. rewrite reduce_loop_nested. apply nested_closed; [done.. |].
  intros x Hx. apply Hit. by apply elem_of_reverse.
Qed.

(** Folding a concatenation is operating on the two folds. *)
Lemma reduce_loop_app s f (e0 : E) (x y : E) (xs ys : list E) :
  group_axioms s f e0 →
  x ∈ s → (∀ z, z ∈ xs → z ∈ s) → y ∈ s → (∀ z, z ∈ ys → z ∈ s) →
  reduce_loop f x (xs ++ y :: ys) = f (reduce_loop f x xs) (reduce_loop f y ys).
Proof.
  intros Hax Hx Hxs Hy. induction ys as [|z ys IH] using rev_ind; intros Hys.
  - apply reduce_loop_snoc.
  - assert (Hys' : ∀ w, w ∈ ys → w ∈ s).
    { intros w Hw. apply Hys, elem_of_app. by left. }
    assert (Hz : z ∈ s).
    { apply Hys, elem_of_app. right. by apply list_elem_of_singleton. }
    change (xs ++ y :: ys ++ [z]) with (xs ++ (y :: ys) ++ [z]).
    rewrite app_assoc, !reduce_loop_snoc, IH by done.
    apply (ax_assoc _ _ _ Hax); [| | done];
      apply reduce_loop_closed; auto; apply (ax_closure _ _ _ Hax).
Qed.

(** X7: on a constructed Group, what [inverse(a)] returns is an inverse of
    [a] on both sides, and it is the only member that is an inverse of [a]
    on either side: the right inverse found by the constructor and the left
    inverse searched by [inverse] are the same element. *)
Theorem inverse_two_sided_unique (self_id : nat) elems o g a :
  __init__ self_id elems o = inr g →
  a ∈ _elems g →
  ∃ b, inverse a g = (inr b, g) ∧
    call (op g) b a = e g ∧ call (op g) a b = e g ∧
    ∀ c, c ∈ _elems g →
      call (op g) c a = e g ∨ call (op g) a c = e g → c = b.
Proof.
  intros Hinit Ha. pose proof (init_axioms _ _ _ _ Hinit) as Hax.
  destruct (inverse_first_left_inverse g a Hax Ha) as (b & Hinv & Hb & Hba & _).
  destruct (inverse_result g a b Hax Ha Hinv) as (_ & _ & Hab).
  exists b. repeat (split; [done |]).
  intros c Hc [Hca | Hac].
  - by apply (inverses_agree _ _ _ a c b Hax).
  - symmetry. by apply (inverses_agree _ _ _ a b c Hax).
Qed.

(** X8: [inverse] does not depend on the iteration order of the set: two
    Groups constructed with the same operation from iterables with the same
    members return the same inverse of every member. *)
Theorem inverse_order_independent
    (id1 id2 : nat) (l1 l2 : list E) o (g1 g2 : Group E) a :
  __init__ id1 l1 o = inr g1 →
  __init__ id2 l2 o = inr g2 →
  (∀ x, x ∈ l1 ↔ x ∈ l2) →
  a ∈ l1 →
  ∃ b, inverse a g1 = (inr b, g1) ∧ inverse a g2 = (inr b, g2).
Proof.
  intros Hinit1 Hinit2 Hsame Ha.
  pose proof (init_axioms _ _ _ _ Hinit1) as Hax1.
  pose proof (init_axioms _ _ _ _ Hinit2) as Hax2.
  destruct (init_returns _ _ _ _ Hinit1) as (_ & Hset1 & Hop1 & _).
  destruct (init_returns _ _ _ _ Hinit2) as (_ & Hset2 & Hop2 & _).
  assert (Hmem : ∀ x, x ∈ _elems g1 ↔ x ∈ _elems g2).
  { intros x. by rewrite Hset1, Hset2, !elem_of_set_. }
  assert (Ha1 : a ∈ _elems g1) by (by rewrite Hset1, elem_of_set_).
  assert (He : e g1 = e g2).
  { pose proof Hax1 as Hax1'. pose proof Hax2 as Hax2'.
    rewrite Hop1 in Hax1'. rewrite Hop2 in Hax2'.
    apply (identity_unique (call o) (_elems g1)).
    - apply (ax_identity_mem _ _ _ Hax1').
    - apply Hmem, (ax_identity_mem _ _ _ Hax2').
    - apply (ax_identity _ _ _ Hax1').
    - intros x Hx. apply (ax_identity _ _ _ Hax2'). by apply Hmem. }
  destruct (inverse_first_left_inverse g1 a Hax1 Ha1) as (b & Hinv & Hb & Hba & _).
  exists b. split; [done |].
  apply inverse_value; [done | by apply Hmem | by apply Hmem |].
  rewrite Hop2, <- Hop1, <- He. done.
Qed.

(** X9: [inverse] is an involution and fixes the identity: when
    [inverse(a)] returns [b], [inverse(b)] returns [a]; [inverse(identity)]
    returns the identity. *)
Theorem inverse_involutive (self_id : nat) elems o g a b :
  __init__ self_id elems o = inr g →
  a ∈ _elems g →
  inverse a g = (inr b, g) →
  inverse b g = (inr a, g) ∧ inverse (e g) g = (inr (e g), g).
Proof.
  intros Hinit Ha Hinv. pose proof (init_axioms _ _ _ _ Hinit) as Hax.
  destruct (inverse_result g a b Hax Ha Hinv) as (Hb & Hba & Hab).
  split.
  - by apply inverse_value.
  - pose proof (ax_identity_mem _ _ _ Hax) as Hem.
    apply inverse_value; [done.. |].
    by destruct (ax_identity _ _ _ Hax (e g) Hem).
Qed.

(** X10: the inverse of a product is the product of the inverses in the
    opposite order: [inverse(op(a, b)) == op(inverse(b), inverse(a))]. *)
Theorem inverse_of_product (self_id : nat) elems o g a b a' b' :
  __init__ self_id elems o = inr g →
  a ∈ _elems g → b ∈ _elems g →
  inverse a g = (inr a', g) →
  inverse b g = (inr b', g) →
  inverse (call (op g) a b) g = (inr (call (op g) b' a'), g).
Proof.
  intros Hinit Ha Hb Hinva Hinvb.
  pose proof (init_axioms _ _ _ _ Hinit) as Hax.
  destruct (inverse_result g a a' Hax Ha Hinva) as (Ha' & Ha'a & _).
  destruct (inverse_result g b b' Hax Hb Hinvb) as (Hb' & Hb'b & _).
  destruct Hax as [Hcl Has Hem Hid Hinv] eqn:Hax'. clear Hax'.
  apply inverse_value; [by split | by apply Hcl | by apply Hcl |].
  rewrite (Has b' a' (call (op g) a b)) by auto.
  rewrite <- (Has a' a b) by auto.
  rewrite Ha'a. destruct (Hid b Hb) as [-> _]. done.
Qed.

(** X11: [operate] with one member returns it, without calling the
    operation; with no argument it passes the membership test and fails in
    [reduce], with a [TypeError] rather than the membership error. *)
Theorem operate_one_or_none g a :
  a ∈ _elems g →
  operate [a] g = (inr a, g) ∧
  operate [] g =
    (inl (TypeError "reduce() of empty iterable with no initial value"), g).
Proof.
  intros Ha. split; [| done].
  rewrite operate_members; [done |].
  intros x Hx. by apply list_elem_of_singleton in Hx as ->.
Qed.

(** X12: [operate] composes: on two non-empty lists of members, operating
    on the arguments of the first followed by those of the second gives the
    same as operating on the two results. *)
Theorem operate_concat (self_id : nat) elems o g (x y : E) (xs ys : list E) :
  __init__ self_id elems o = inr g →
  (∀ z, z ∈ x :: xs → z ∈ _elems g) →
  (∀ z, z ∈ y :: ys → z ∈ _elems g) →
  ∃ r1 r2,
    operate (x :: xs) g = (inr r1, g) ∧
    operate (y :: ys) g = (inr r2, g) ∧
    operate ((x :: xs) ++ y :: ys) g = (inr (call (op g) r1 r2), g) ∧
    operate [r1; r2] g = (inr (call (op g) r1 r2), g).
Proof.
  intros Hinit Hxs Hys. pose proof (init_axioms _ _ _ _ Hinit) as Hax.
  assert (Hx : x ∈ _elems g) by (apply Hxs; left).
  assert (Hy : y ∈ _elems g) by (apply Hys; left).
  assert (Hxs' : ∀ z, z ∈ xs → z ∈ _elems g) by (intros z Hz; apply Hxs; by right).
  assert (Hys' : ∀ z, z ∈ ys → z ∈ _elems g) by (intros z Hz; apply Hys; by right).
  exists (reduce_loop (call (op g)) x xs), (reduce_loop (call (op g)) y ys).
  rewrite !operate_members; try done.
  - simpl. repeat (split; [done |]). split; [| done].
    by rewrite (reduce_loop_app (_elems g) (call (op g)) (e g)).
  - intros z Hz. apply elem_of_cons in Hz as [-> | Hz];
      [| apply list_elem_of_singleton in Hz as ->];
      apply reduce_loop_closed; auto; apply (ax_closure _ _ _ Hax).
  - intros z Hz. apply elem_of_app in Hz as [Hz | Hz]; auto.
Qed.

(** X13: operating on a member and its inverse, in either order, gives the
    identity. *)
Theorem operate_with_inverse (self_id : nat) elems o g a b :
  __init__ self_id elems o = inr g →
  a ∈ _elems g →
  inverse a g = (inr b, g) →
  operate [a; b] g = (inr (e g), g) ∧ operate [b; a] g = (inr (e g), g).
Proof.
  intros Hinit Ha Hinv. pose proof (init_axioms _ _ _ _ Hinit) as Hax.
  destruct (inverse_result g a b Hax Ha Hinv) as (Hb & Hba & Hab).
  split; (rewrite operate_members;
    [simpl; by rewrite ?Hab, ?Hba
    | intros x Hx; apply elem_of_cons in Hx as [-> | Hx];
      [done | by apply list_elem_of_singleton in Hx as ->]]).
Qed.

(** X14: [is_abelian()] returns [True] exactly when the operation commutes
    on every pair of members, and always returns. *)
Theorem is_abelian_iff g :
  ∃ r : bool, is_abelian g = (inr r, g) ∧
    (r = true ↔
     ∀ a b, a ∈ _elems g → b ∈ _elems g → call (op g) a b = call (op g) b a).
Proof.
  eexists. split; [reflexivity |].
  rewrite all_fmap_true. split.
  - intros Hall a b Ha Hb.
    specialize (Hall (a, b) ltac:(by apply elem_of_product2)).
    by apply eqb_eq in Hall.
  - intros Hcomm [a b] Hab. apply elem_of_product2 in Hab as [Ha Hb].
    apply eqb_true. simpl. auto.
Qed.
End algebra.

(** ** The container protocol and the comparisons *)

Section containers.
Context {E : Type} `{EqDecision E}.
Implicit Types (s t l elems : list E) (a b c : E) (o : operation E)
  (g : Group E) (other : pyobj E).

Lemma length_set_ l : length (set_ l) ≤ length l.
Proof.
  apply submseteq_length, NoDup_submseteq; [apply NoDup_set_ |].
  intros x. by rewrite elem_of_set_.
Qed.

(** [s < t] on sets, as a proposition. *)
Lemma set_lt_true s t :
  set_lt s t = true ↔ (∀ x, x ∈ s → x ∈ t) ∧ ∃ y, y ∈ t ∧ y ∉ s.
Proof.
  unfold set_lt. rewrite andb_true_iff, negb_true_iff, set_le_true. split.
  - intros [Hst Hts]. split; [done |].
    unfold set_le in Hts.
    destruct (all _) eqn:Hall in Hts; [done |]. clear Hts.
    destruct (decide (Exists (λ y, y ∉ s) t)) as [Hex | Hno].
    + apply Exists_exists in Hex as (y & Hy & Hout). by exists y.
    + assert (all ((λ x, mem x s) <$> t) = true); [| congruence].
      apply all_fmap_true. intros y Hy. apply mem_true.
      destruct (decide (y ∈ s)) as [|Hout]; [done |].
      destruct Hno. apply Exists_exists. by exists y.
  - intros [Hst (y & Hy & Hout)]. split; [done |].
    destruct (set_le t s) eqn:Hts; [| done].
    destruct Hout. by apply (proj1 (set_le_true t s) Hts).
Qed.

(** A set that is a proper subset of another has fewer elements. *)
Lemma proper_subset_length s t :
  NoDup s → (∀ x, x ∈ s → x ∈ t) → (∃ y, y ∈ t ∧ y ∉ s) →
  length s < length t.
Proof.
  intros Hnd Hst (y & Hy & Hout).
  assert (Hsub : y :: s ⊆+ t).
  { apply NoDup_submseteq; [by apply NoDup_cons |].
    intros x Hx. apply elem_of_cons in Hx as [-> | Hx]; auto. }
  apply submseteq_length in Hsub. simpl in Hsub. lia.
Qed.

(** X15: a Group constructed from [elems] is a container of the members of
    [elems]: iterating yields each of them once, [in] tests membership in
    [elems], and [len] is the number of values yielded, at least 1 (a Group
    is never empty) and at most the length of [elems]. *)
Theorem container_protocol (self_id : nat) elems o g :
  __init__ self_id elems o = inr g →
  ∃ (it : list E) (n : nat),
    __iter__ g = (inr it, g) ∧ __len__ g = (inr n, g) ∧
    NoDup it ∧ n = length it ∧ 1 ≤ n ∧ n ≤ length elems ∧
    ∀ x, (x ∈ it ↔ x ∈ elems) ∧
         ∃ r : bool, __contains__ x g = (inr r, g) ∧ (r = true ↔ x ∈ elems).
Proof.
  intros Hinit. pose proof (init_axioms _ _ _ _ Hinit) as Hax.
  destruct (init_returns _ _ _ _ Hinit) as (_ & Hset & _).
  exists (_elems g), (length (_elems g)).
  split; [done |]. split; [done |].
  split; [rewrite Hset; apply NoDup_set_ |]. split; [done |].
  split.
  { pose proof (ax_identity_mem _ _ _ Hax) as Hem.
    destruct (_elems g); [by apply not_elem_of_nil in Hem | simpl; lia]. }
  split; [rewrite Hset; apply length_set_ |].
  intros x. split; [by rewrite Hset, elem_of_set_ |].
  exists (mem x (_elems g)). split; [done |].
  by rewrite mem_true, Hset, elem_of_set_.
Qed.

(** X16: [self < other], for another Group or a raw set, returns [True]
    exactly when the carrier set is a proper subset of the elements of
    [other]; the operations play no part. *)
Theorem lt_proper_subset g other :
  ∃ r : bool, __lt__ other g = (inr r, g) ∧
    (r = true ↔
     (∀ x, x ∈ _elems g → x ∈ pyobj_elems other) ∧
     ∃ y, y ∈ pyobj_elems other ∧ y ∉ _elems g).
Proof.
  exists (set_lt (_elems g) (pyobj_elems other)).
  split; [by destruct other |]. apply set_lt_true.
Qed.

(** X17: [<] between Groups is a strict partial order: no Group is less
    than itself, [g1 < g2] excludes [g2 < g1], and [g1 < g2 < g3] gives
    [g1 < g3]. *)
Theorem lt_strict_order (g1 g2 g3 : Group E) :
  __lt__ (PyGroup g1) g1 = (inr false, g1) ∧
  (__lt__ (PyGroup g2) g1 = (inr true, g1) →
   __lt__ (PyGroup g1) g2 = (inr false, g2)) ∧
  (__lt__ (PyGroup g2) g1 = (inr true, g1) →
   __lt__ (PyGroup g3) g2 = (inr true, g2) →
   __lt__ (PyGroup g3) g1 = (inr true, g1)).
Proof.
  unfold __lt__, mbind, method_bind, read_self, mret, method_ret.
  split; [by rewrite set_lt_same |]. split.
  - intros [= H12]. do 2 f_equal.
    apply set_lt_true in H12 as [H12 _].
    unfold set_lt. apply set_le_true in H12. rewrite H12. apply andb_false_r.
  - intros [= H12] [= H23]. do 2 f_equal.
    apply set_lt_true in H12 as [H12 _]. apply set_lt_true in H23 as [H23 (y & Hy & Hout)].
    apply set_lt_true. split; [auto |]. exists y. split; [done |].
    intros Hy1. apply Hout. auto.
Qed.

(** X18: a Group that is less than another has fewer elements. *)
Theorem lt_fewer_elements
    (id1 id2 : nat) (l1 l2 : list E) (o1 o2 : operation E) (g1 g2 : Group E) :
  __init__ id1 l1 o1 = inr g1 →
  __init__ id2 l2 o2 = inr g2 →
  __lt__ (PyGroup g2) g1 = (inr true, g1) →
  ∃ n1 n2, __len__ g1 = (inr n1, g1) ∧ __len__ g2 = (inr n2, g2) ∧ n1 < n2.
Proof.
  intros Hinit1 _ Hlt.
  destruct (init_returns _ _ _ _ Hinit1) as (_ & Hset1 & _).
  exists (length (_elems g1)), (length (_elems g2)).
  split; [done |]. split; [done |].
  unfold __lt__, mbind, method_bind, read_self, mret, method_ret in Hlt.
  injection Hlt as Hlt. apply set_lt_true in Hlt as [Hsub Hex].
  apply proper_subset_length; [| done | done].
  rewrite Hset1. apply NoDup_set_.
Qed.

(** X19: against a raw set with the same members, or another Group object
    with the same members, [<], [<=] and [==] return [False] while [>],
    [>=] and [!=] return [True]. *)
Theorem same_members_comparisons g other :
  (∀ x, x ∈ _elems g ↔ x ∈ pyobj_elems other) →
  ¬ is_object (oid g) other →
  __lt__ other g = (inr false, g) ∧ __le__ other g = (inr false, g) ∧
  __eq__ other g = (inr false, g) ∧ __gt__ other g = (inr true, g) ∧
  __ge__ other g = (inr true, g) ∧ __ne__ other g = (inr true, g).
Proof.
  intros Hsame Hother.
  pose proof (set_lt_same _ _ Hsame) as Hlt.
  assert (Heq : __eq__ other g = (inr false, g)).
  { destruct other as [h | s]; [| done]. simpl in Hother.
    unfold __eq__, mbind, method_bind, read_self, mret, method_ret.
    assert ((oid g =? oid h) = false) as ->; [| done].
    apply Nat.eqb_neq. congruence. }
  assert (Hlt' : __lt__ other g = (inr false, g)).
  { unfold __lt__, mbind, method_bind, read_self, mret, method_ret.
    destruct other; simpl in Hlt; by rewrite Hlt. }
  assert (Hne : __ne__ other g = (inr true, g)).
  { unfold __ne__, mbind, method_bind. by rewrite Heq. }
  split; [done |]. split.
  { unfold __le__, mbind, method_bind. by rewrite Hlt'. }
  split; [done |]. split.
  { unfold __gt__, mbind, method_bind. by rewrite Hlt'. }
  split; [| done].
  unfold __ge__, mbind, method_bind. by rewrite Hlt'.
Qed.
End containers.

(** ** String conversions and sequences of calls *)

Lemma append_assoc (s1 s2 s3 : string) :
  (s1 +:+ s2) +:+ s3 = s1 +:+ s2 +:+ s3.
Proof.
  induction s1 as [|c s1 IH]; [done |].
  change (String c ((s1 +:+ s2) +:+ s3) = String c (s1 +:+ s2 +:+ s3)).
  by rewrite IH.
Qed.

Section strings.
Context {E : Type} `{EqDecision E}.
Variable repr_elem : E → string.

(** X20: the string conversions of a constructed Group whose operation
    has a [__name__] always show a set display in braces, never the [set()]
    of an empty set: [repr] is [Group({e1, ..., en}, name)] and [str] is
    [<{e1, ..., en}, name>], with the elements in iteration order. When
    reading the [__name__] of the operation raises, both conversions raise
    that exception. The Group is unchanged in every case. *)
Theorem repr_str_format (self_id : nat) (elems : list E) (o : operation E) (g : Group E) :
  __init__ self_id elems o = inr g →
  (∀ name, __name__ o = inr name →
     __repr__ repr_elem g =
       (inr ("Group({" +:+ String.concat ", " (repr_elem <$> _elems g)
             +:+ "}, " +:+ name +:+ ")"), g) ∧
     __str__ repr_elem g =
       (inr ("<{" +:+ String.concat ", " (repr_elem <$> _elems g)
             +:+ "}, " +:+ name +:+ ">"), g)) ∧
  (∀ err, __name__ o = inl err →
     __repr__ repr_elem g = (inl err, g) ∧ __str__ repr_elem g = (inl err, g)).
Proof.
  intros Hinit. pose proof (init_axioms _ _ _ _ Hinit) as Hax.
  destruct (init_returns _ _ _ _ Hinit) as (_ & _ & Hop & _).
  pose proof (ax_identity_mem _ _ _ Hax) as Hem.
  unfold __repr__, __str__, mbind, method_bind, read_self, lift, mret, method_ret.
  rewrite Hop. split.
  - intros name ->. unfold repr_set.
    destruct (_elems g) as [|x s] eqn:Hs; [by apply not_elem_of_nil in Hem |].
    split; do 2 f_equal; rewrite !append_assoc; done.
  - intros err ->. done.
Qed.

(** X21: in a sequence of calls on one Group, every call returns or raises
    what it would as the only call: the outcomes are those of the single
    calls on the Group as constructed. *)
Theorem run_queries_outcomes (qs : list query) (g : Group E) :
  (run_queries repr_elem qs g).1 = (λ q, (run_query repr_elem q g).1) <$> qs.
Proof.
  induction qs as [|q qs IH]; simpl; [done |].
  pose proof (run_query_frame repr_elem q g) as Hq.
  destruct (run_query repr_elem q g) as [r g']. simpl in Hq. subst g'.
  destruct (run_queries repr_elem qs g) as [rs g'']. simpl in *.
  by rewrite IH.
Qed.
End strings.

(** ** The further properties on the examples *)

Local Open Scope Z_scope.

Lemma members_in (l s : list Z) :
  set_le l s = true → ∀ x, x ∈ l → x ∈ s.
Proof. apply set_le_true. Qed.

Lemma members_same (l s : list Z) :
  set_le l s = true → set_le s l = true → ∀ x, x ∈ l ↔ x ∈ s.
Proof.
  intros Hls Hsl x. split; [by apply members_in | by apply members_in].
Qed.

Lemma closed_by_check (s : list Z) (f : Z → Z → Z) :
  any ((λ ab : Z * Z, negb (mem (f ab.1 ab.2) s)) <$> product2 s) = false →
  ∀ a b, a ∈ s → b ∈ s → f a b ∈ s.
Proof. apply closure_check. Qed.

Lemma assoc_by_check (s : list Z) (f : Z → Z → Z) :
  any ((λ abc : Z * Z * Z,
          negb (eqb_ (f (f abc.1.1 abc.1.2) abc.2) (f abc.1.1 (f abc.1.2 abc.2))))
       <$> product3 s) = false →
  ∀ a b c, a ∈ s → b ∈ s → c ∈ s → f (f a b) c = f a (f b c).
Proof. apply assoc_check. Qed.

Lemma init_returns_iff_witness :
  __init__ 0 [0; 1; 2; 3] add_mod4 = inr (Z4 0) ∧
  group_axioms [0; 1; 2; 3] (call add_mod4) (e (Z4 0)).
Proof.
  split; [reflexivity |].
  apply (proj1 (init_returns_iff 0 [0; 1; 2; 3] add_mod4 (Z4 0))). reflexivity.
Defined.

Lemma operation_check_first_witness :
  is_callable unary = true ∧ parameters unary = inr 1%nat ∧
  __init__ 0 [0; 1; 2; 3] unary =
    inl (TypeError "operation must be callable and take 2 arguments") ∧
  is_callable builtin_max = true ∧
  __init__ 0 [0; 1; 2; 3] builtin_max =
    inl (ValueError "no signature found for builtin <built-in function max>").
Proof.
  split; [reflexivity |]. split; [reflexivity |]. split.
  - apply (proj2 (proj2 (operation_check_first 0 [0; 1; 2; 3] unary)) 1%nat).
    + reflexivity.
    + reflexivity.
    + discriminate.
  - split; [reflexivity |].
    apply (proj1 (proj2 (operation_check_first 0 [0; 1; 2; 3] builtin_max))).
    + reflexivity.
    + reflexivity.
Defined.

Lemma associativity_violation_rejected_witness :
  (∀ x y, x ∈ [0; 1; 2] → y ∈ [0; 1; 2] → call sub_mod3 x y ∈ [0; 1; 2]) ∧
  call sub_mod3 (call sub_mod3 0 1) 1 ≠ call sub_mod3 0 (call sub_mod3 1 1) ∧
  __init__ 0 [0; 1; 2] sub_mod3 =
    inl (TypeError "the associativity property is not satisfied").
Proof.
  assert (Hcl : ∀ x y, x ∈ [0; 1; 2] → y ∈ [0; 1; 2] → call sub_mod3 x y ∈ [0; 1; 2])
    by (apply closed_by_check; reflexivity).
  split; [exact Hcl |]. split; [discriminate |].
  apply (associativity_violation_rejected 0 [0; 1; 2] sub_mod3 0 1 1).
  - reflexivity.
  - reflexivity.
  - exact Hcl.
  - apply (members_in [0] [0; 1; 2]); [reflexivity | left].
  - apply (members_in [1] [0; 1; 2]); [reflexivity | left].
  - apply (members_in [1] [0; 1; 2]); [reflexivity | left].
  - discriminate.
Defined.

Lemma no_identity_zero :
  ¬ ∃ x, x ∈ [0; 1] ∧ ∀ a, a ∈ [0; 1] → call zero x a = a ∧ call zero a x = a.
Proof.
  intros (x & _ & Hid).
  destruct (Hid 1) as [H1 _]; [right; left | discriminate H1].
Defined.

Lemma missing_identity_rejected_witness :
  (¬ ∃ x, x ∈ [0; 1] ∧ ∀ a, a ∈ [0; 1] → call zero x a = a ∧ call zero a x = a) ∧
  __init__ 0 [0; 1] zero =
    inl (TypeError "the identity property is not satisfied").
Proof.
  split; [exact no_identity_zero |].
  apply (missing_identity_rejected 0 [0; 1] zero).
  - reflexivity.
  - reflexivity.
  - apply closed_by_check; reflexivity.
  - apply assoc_by_check; reflexivity.
  - exact no_identity_zero.
Defined.

Lemma missing_inverse_rejected_witness :
  (∀ x, x ∈ [0; 1] → call mul 1 x = x ∧ call mul x 1 = x) ∧
  (∀ b, b ∈ [0; 1] → call mul 0 b ≠ 1) ∧
  __init__ 0 [0; 1] mul =
    inl (TypeError "the inverse property is not satisfied").
Proof.
  assert (Hid : ∀ x, x ∈ [0; 1] → call mul 1 x = x ∧ call mul x 1 = x)
    by (intros x _; simpl; lia).
  assert (Hnone : ∀ b, b ∈ [0; 1] → call mul 0 b ≠ 1)
    by (intros b _; simpl; lia).
  split; [exact Hid |]. split; [exact Hnone |].
  apply (missing_inverse_rejected 0 [0; 1] mul 1 0).
  - reflexivity.
  - reflexivity.
  - apply closed_by_check; reflexivity.
  - apply assoc_by_check; reflexivity.
  - apply (members_in [1] [0; 1]); [reflexivity | left].
  - exact Hid.
  - apply (members_in [0] [0; 1]); [reflexivity | left].
  - exact Hnone.
Defined.

Lemma init_order_independent_witness :
  (∀ x, x ∈ [0; 1; 2; 3] ↔ x ∈ [3; 3; 2; 1; 0]) ∧
  __init__ 0 [0; 1; 2; 3] add_mod4 = inr (Z4 0) ∧
  match __init__ 0 [3; 3; 2; 1; 0] add_mod4 with
  | inr g2 => e (Z4 0) = e g2 ∧ ∀ x, x ∈ _elems (Z4 0) ↔ x ∈ _elems g2
  | inl _ => False
  end.
Proof.
  assert (Hsame : ∀ x, x ∈ [0; 1; 2; 3] ↔ x ∈ [3; 3; 2; 1; 0])
    by (apply members_same; reflexivity).
  split; [exact Hsame |]. split; [reflexivity |].
  exact (proj2 (proj2 (init_order_independent 0 [0; 1; 2; 3] [3; 3; 2; 1; 0]
                         add_mod4 Hsame))).
Defined.

Lemma inverse_two_sided_unique_witness :
  __init__ 0 [0; 1; 2; 3] add_mod4 = inr (Z4 0) ∧
  1 ∈ _elems (Z4 0) ∧
  ∃ b, inverse 1 (Z4 0) = (inr b, Z4 0) ∧
    call (op (Z4 0)) b 1 = e (Z4 0) ∧ call (op (Z4 0)) 1 b = e (Z4 0) ∧
    ∀ c, c ∈ _elems (Z4 0) →
      call (op (Z4 0)) c 1 = e (Z4 0) ∨ call (op (Z4 0)) 1 c = e (Z4 0) → c = b.
Proof.
  split; [reflexivity |]. split; [apply Z4_member; reflexivity |].
  apply (inverse_two_sided_unique 0 [0; 1; 2; 3] add_mod4 (Z4 0) 1).
  - reflexivity.
  - apply Z4_member; reflexivity.
Defined.

Lemma inverse_order_independent_witness :
  __init__ 1 [0; 1; 2; 3] add_mod4 = inr (Z4 1) ∧
  __init__ 2 [3; 2; 1; 0] add_mod4 = inr Z4_rev ∧
  (∀ x, x ∈ [0; 1; 2; 3] ↔ x ∈ [3; 2; 1; 0]) ∧
  1 ∈ [0; 1; 2; 3] ∧
  ∃ b, inverse 1 (Z4 1) = (inr b, Z4 1) ∧ inverse 1 Z4_rev = (inr b, Z4_rev).
Proof.
  assert (Hsame : ∀ x, x ∈ [0; 1; 2; 3] ↔ x ∈ [3; 2; 1; 0])
    by (apply members_same; reflexivity).
  assert (H1 : 1 ∈ [0; 1; 2; 3]) by (apply mem_elem_of; reflexivity).
  split; [reflexivity |]. split; [reflexivity |].
  split; [exact Hsame |]. split; [exact H1 |].
  apply (inverse_order_independent 1 2 [0; 1; 2; 3] [3; 2; 1; 0] add_mod4
           (Z4 1) Z4_rev 1).
  - reflexivity.
  - reflexivity.
  - exact Hsame.
  - exact H1.
Defined.

Lemma inverse_involutive_witness :
  __init__ 0 [0; 1; 2; 3] add_mod4 = inr (Z4 0) ∧
  1 ∈ _elems (Z4 0) ∧
  inverse 1 (Z4 0) = (inr 3, Z4 0) ∧
  inverse 3 (Z4 0) = (inr 1, Z4 0) ∧
  inverse (e (Z4 0)) (Z4 0) = (inr (e (Z4 0)), Z4 0).
Proof.
  split; [reflexivity |]. split; [apply Z4_member; reflexivity |].
  split; [reflexivity |].
  apply (inverse_involutive 0 [0; 1; 2; 3] add_mod4 (Z4 0) 1 3).
  - reflexivity.
  - apply Z4_member; reflexivity.
  - reflexivity.
Defined.

Lemma inverse_of_product_witness :
  __init__ 0 [0; 1; 2; 3] add_mod4 = inr (Z4 0) ∧
  inverse 1 (Z4 0) = (inr 3, Z4 0) ∧
  inverse 2 (Z4 0) = (inr 2, Z4 0) ∧
  inverse (call (op (Z4 0)) 1 2) (Z4 0) = (inr (call (op (Z4 0)) 2 3), Z4 0).
Proof.
  split; [reflexivity |]. split; [reflexivity |]. split; [reflexivity |].
  apply (inverse_of_product 0 [0; 1; 2; 3] add_mod4 (Z4 0) 1 2 3 2).
  - reflexivity.
  - apply Z4_member; reflexivity.
  - apply Z4_member; reflexivity.
  - reflexivity.
  - reflexivity.
Defined.

Lemma operate_one_or_none_witness :
  2 ∈ _elems (Z4 0) ∧
  operate [2] (Z4 0) = (inr 2, Z4 0) ∧
  operate [] (Z4 0) =
    (inl (TypeError "reduce() of empty iterable with no initial value"), Z4 0).
Proof.
  split; [apply Z4_member; reflexivity |].
  apply (operate_one_or_none (Z4 0) 2). apply Z4_member; reflexivity.
Defined.

Lemma operate_concat_witness :
  __init__ 0 [0; 1; 2; 3] add_mod4 = inr (Z4 0) ∧
  (∀ z, z ∈ [1; 2] → z ∈ _elems (Z4 0)) ∧
  (∀ z, z ∈ [3; 3] → z ∈ _elems (Z4 0)) ∧
  ∃ r1 r2,
    operate [1; 2] (Z4 0) = (inr r1, Z4 0) ∧
    operate [3; 3] (Z4 0) = (inr r2, Z4 0) ∧
    operate ([1; 2] ++ [3; 3]) (Z4 0) = (inr (call (op (Z4 0)) r1 r2), Z4 0) ∧
    operate [r1; r2] (Z4 0) = (inr (call (op (Z4 0)) r1 r2), Z4 0).
Proof.
  assert (H12 : ∀ z, z ∈ [1; 2] → z ∈ _elems (Z4 0))
    by (apply members_in; reflexivity).
  assert (H33 : ∀ z, z ∈ [3; 3] → z ∈ _elems (Z4 0))
    by (apply members_in; reflexivity).
  split; [reflexivity |]. split; [exact H12 |]. split; [exact H33 |].
  apply (operate_concat 0 [0; 1; 2; 3] add_mod4 (Z4 0) 1 3 [2] [3]).
  - reflexivity.
  - exact H12.
  - exact H33.
Defined.

Lemma operate_with_inverse_witness :
  __init__ 0 [0; 1; 2; 3] add_mod4 = inr (Z4 0) ∧
  1 ∈ _elems (Z4 0) ∧
  inverse 1 (Z4 0) = (inr 3, Z4 0) ∧
  operate [1; 3] (Z4 0) = (inr (e (Z4 0)), Z4 0) ∧
  operate [3; 1] (Z4 0) = (inr (e (Z4 0)), Z4 0).
Proof.
  split; [reflexivity |]. split; [apply Z4_member; reflexivity |].
  split; [reflexivity |].
  apply (operate_with_inverse 0 [0; 1; 2; 3] add_mod4 (Z4 0) 1 3).
  - reflexivity.
  - apply Z4_member; reflexivity.
  - reflexivity.
Defined.

Lemma container_protocol_witness :
  __init__ 0 [0; 1; 2; 3] add_mod4 = inr (Z4 0) ∧
  ∃ (it : list Z) (n : nat),
    __iter__ (Z4 0) = (inr it, Z4 0) ∧ __len__ (Z4 0) = (inr n, Z4 0) ∧
    NoDup it ∧ n = length it ∧ (1 ≤ n)%nat ∧ (n ≤ length [0; 1; 2; 3])%nat ∧
    ∀ x, (x ∈ it ↔ x ∈ [0; 1; 2; 3]) ∧
         ∃ r : bool, __contains__ x (Z4 0) = (inr r, Z4 0) ∧
                     (r = true ↔ x ∈ [0; 1; 2; 3]).
Proof.
  split; [reflexivity |].
  apply (container_protocol 0 [0; 1; 2; 3] add_mod4 (Z4 0)). reflexivity.
Defined.

Lemma lt_strict_order_witness :
  __lt__ (PyGroup Z4_even) Z4_zero = (inr true, Z4_zero) ∧
  __lt__ (PyGroup (Z4 0)) Z4_even = (inr true, Z4_even) ∧
  __lt__ (PyGroup (Z4 0)) Z4_zero = (inr true, Z4_zero).
Proof.
  split; [reflexivity |]. split; [reflexivity |].
  apply (proj2 (proj2 (lt_strict_order Z4_zero Z4_even (Z4 0)))); reflexivity.
Defined.

Lemma lt_fewer_elements_witness :
  __init__ 3 [0; 2] add_mod4 = inr Z4_even ∧
  __init__ 0 [0; 1; 2; 3] add_mod4 = inr (Z4 0) ∧
  __lt__ (PyGroup (Z4 0)) Z4_even = (inr true, Z4_even) ∧
  ∃ n1 n2, __len__ Z4_even = (inr n1, Z4_even) ∧
           __len__ (Z4 0) = (inr n2, Z4 0) ∧ (n1 < n2)%nat.
Proof.
  split; [reflexivity |]. split; [reflexivity |]. split; [reflexivity |].
  apply (lt_fewer_elements 3 0 [0; 2] [0; 1; 2; 3] add_mod4 add_mod4
           Z4_even (Z4 0)); reflexivity.
Defined.

Lemma same_members_comparisons_witness :
  (∀ x, x ∈ _elems (Z4 0) ↔ x ∈ pyobj_elems (PySet [3; 2; 1; 0; 0])) ∧
  ¬ is_object (oid (Z4 0)) (PySet [3; 2; 1; 0; 0]) ∧
  __le__ (PySet [3; 2; 1; 0; 0]) (Z4 0) = (inr false, Z4 0) ∧
  __gt__ (PySet [3; 2; 1; 0; 0]) (Z4 0) = (inr true, Z4 0).
Proof.
  assert (Hsame : ∀ x, x ∈ _elems (Z4 0) ↔ x ∈ pyobj_elems (PySet [3; 2; 1; 0; 0]))
    by (apply members_same; reflexivity).
  assert (Hother : ¬ is_object (oid (Z4 0)) (PySet [3; 2; 1; 0; 0]))
    by (intros []).
  split; [exact Hsame |]. split; [exact Hother |].
  pose proof (same_members_comparisons (Z4 0) (PySet [3; 2; 1; 0; 0]) Hsame Hother)
    as (_ & Hle & _ & Hgt & _).
  split; [exact Hle | exact Hgt].
Defined.

Lemma Z4_partial_constructed :
  __init__ 5 [0; 1; 2; 3] partial_add_mod4 = inr Z4_partial.
Proof. reflexivity. Defined.

Lemma repr_str_format_witness :
  __init__ 0 [0; 1; 2; 3] add_mod4 = inr (Z4 0) ∧
  __name__ add_mod4 = inr "<lambda>" ∧
  (__repr__ (λ _, "n") (Z4 0) = (inr "Group({n, n, n, n}, <lambda>)", Z4 0) ∧
   __str__ (λ _, "n") (Z4 0) = (inr "<{n, n, n, n}, <lambda>>", Z4 0)) ∧
  __init__ 5 [0; 1; 2; 3] partial_add_mod4 = inr Z4_partial ∧
  __repr__ (λ _, "n") Z4_partial =
    (inl (AttributeError "'functools.partial' object has no attribute '__name__'"),
     Z4_partial).
Proof.
  split; [reflexivity |]. split; [reflexivity |]. split.
  - apply (proj1 (repr_str_format (λ _, "n") 0 [0; 1; 2; 3] add_mod4 (Z4 0)
                    (Z4_constructed 0)) "<lambda>").
    reflexivity.
  - split; [reflexivity |].
    apply (proj2 (repr_str_format (λ _, "n") 5 [0; 1; 2; 3] partial_add_mod4
                    Z4_partial Z4_partial_constructed)).
    reflexivity.
Defined.
